(** * A shallow embedding of the store orchestration layer (src/index.ts)

    The development follows the source file top-down: JavaScript values,
    the action type namer, deferred completions, the argument dedup
    cache, the action dispatch engine (as a transition system over the
    suspension points of the async functions), reducer composition,
    nested stores and the subscription notifier. *)

From Stdlib Require Import ZArith Bool Lia Sorted.
From stdpp Require Import base list strings pretty.

Set Warnings "-register-all".

Local Open Scope string_scope.
Local Open Scope list_scope.

(** ** JavaScript values *)

Module Js.

(** The values the store layer moves around.  Objects and arrays carry the
    address they were allocated at: [===] on them is reference identity.
    Numbers are the integral ones and [NaN] (no negative zero). *)
Inductive Val : Type :=
| VUndefined
| VNull
| VBool (b : bool)
| VNum (n : Z)
| VStr (s : string)
| VObj (addr : nat) (fields : list (string * Val))
| VArr (addr : nat) (elems : list Val)
| VNaN.

(** [if (v)], [!v], [v && ...], [v || ...]. *)
Definition truthy (v : Val) : bool :=
  match v with
  | VUndefined | VNull | VNaN => false
  | VBool b => b
  | VNum n => negb (n =? 0)%Z
  | VStr s => match s with EmptyString => false | String _ _ => true end
  | VObj _ _ | VArr _ _ => true
  end.

(** [a === b]; [NaN] is identical to nothing, itself included. *)
Definition strict_eq (a b : Val) : bool :=
  match a, b with
  | VUndefined, VUndefined => true
  | VNull, VNull => true
  | VBool x, VBool y => Bool.eqb x y
  | VNum x, VNum y => (x =? y)%Z
  | VStr x, VStr y => String.eqb x y
  | VObj x _, VObj y _ => Nat.eqb x y
  | VArr x _, VArr y _ => Nat.eqb x y
  | _, _ => false
  end.

(** [v == null]. *)
Definition is_nullish (v : Val) : bool :=
  match v with
  | VUndefined | VNull => true
  | _ => false
  end.

(** [v || null]. *)
Definition or_null (v : Val) : Val := if truthy v then v else VNull.

Fixpoint lookup_field (k : string) (fs : list (string * Val)) : Val :=
  match fs with
  | [] => VUndefined
  | (k', v) :: fs' => if String.eqb k k' then v else lookup_field k fs'
  end.

(** [v.length]; [None] is the TypeError of a property read on
    [undefined] or [null]. *)
Definition get_length (v : Val) : option Val :=
  match v with
  | VUndefined | VNull => None
  | VArr _ l => Some (VNum (Z.of_nat (length l)))
  | VStr s => Some (VNum (Z.of_nat (String.length s)))
  | VObj _ fs => Some (lookup_field "length" fs)
  | VBool _ | VNum _ | VNaN => Some VUndefined
  end.

(** [v[i]] on a value whose [length] could be read. *)
Definition index (v : Val) (i : nat) : Val :=
  match v with
  | VArr _ l => nth i l VUndefined
  | VStr s => match String.get i s with
              | Some c => VStr (String c EmptyString)
              | None => VUndefined
              end
  | VObj _ fs => lookup_field (pretty i) fs
  | _ => VUndefined
  end.

(** [Object.assign({}, a, b)] on the field lists: the fields of [b]
    override those of [a], the other fields of [a] are kept. *)
Definition assign_fields (a b : list (string * Val)) : list (string * Val) :=
  List.filter (fun kv => negb (existsb (fun kv' => String.eqb (fst kv) (fst kv')) b)) a ++ b.

Definition fields_of (v : Val) : list (string * Val) :=
  match v with
  | VObj _ fs => fs
  | _ => []
  end.

(** [Object.assign({}, a, b)], allocated at [addr]. *)
Definition object_assign (addr : nat) (a b : Val) : Val :=
  VObj addr (assign_fields (fields_of a) (fields_of b)).

End Js.

Import Js.

(** ** Action type namer (utils/action-type-manager) *)

Module TypeNamer.

Inductive ActionState := START | SUCCESS | ERROR.

(** Modelled from the spec: utils/action-type-manager is not part of the
    sources at hand.  The spec (4.1) makes it a pure transformation that
    derives a store-scoped identifier for an action, recovers the base
    identifier of a type, tells which lifecycle suffix a type carries and
    derives the suffixed variants of a base type.  A type is kept in
    parsed form: scope, action name and lifecycle suffix. *)
Record ActionType := mkType {
  scope : string;
  name : string;
  suffix : option ActionState
}.

(** Modelled from the spec: [new ActionTypeManager(k, storeName).getType()]. *)
Definition scoped (k storeName : string) : ActionType := mkType storeName k None.

(** Modelled from the spec: [getType()], the base identifier. *)
Definition getType (t : ActionType) : ActionType := mkType (scope t) (name t) None.

(** Modelled from the spec: [getTypeWithState(state)]. *)
Definition getTypeWithState (t : ActionType) (s : ActionState) : ActionType :=
  mkType (scope t) (name t) (Some s).

End TypeNamer.

Import TypeNamer.

(** ** Deferred completion (utils/deferred) *)

Module Deferreds.

Inductive Settlement :=
| Pending
| Resolved
| Rejected (error : Val).

(** Modelled from the spec: utils/deferred is not part of the sources at
    hand.  The spec (3, 4.2) gives a deferred a subscription flag and a
    single settlement; [create(previous)] builds a new pending completion
    and has no effect on the previous one; [resolve] and [reject] settle
    once and are no-ops afterwards.  [creator] is a ghost label: the
    invocation whose [dispatch] allocated the deferred.  What the chain
    through [previous] does when a deferred settles is inside
    utils/deferred: [settlement] is what the calls made on the deferred
    itself have done to it, and nothing is derived from it for a deferred
    the action no longer references. *)
Record Deferred := mkDeferred {
  previous : option nat;
  subscribedTo : bool;
  settlement : Settlement;
  creator : nat
}.

(** The deferreds allocated so far; a reference is an index. *)
Abbreviation Heap := (list Deferred).

(** Modelled from the spec: [new Deferred(prev)]. *)
Definition create (prev : option nat) (by_call : nat) (h : Heap) : nat * Heap :=
  (length h, h ++ [mkDeferred prev false Pending by_call]).

Definition settle (s : Settlement) (d : Deferred) : Deferred :=
  match settlement d with
  | Pending => mkDeferred (previous d) (subscribedTo d) s (creator d)
  | _ => d
  end.

(** Modelled from the spec: [d.resolve()]. *)
Definition resolve (d : nat) (h : Heap) : Heap := alter (settle Resolved) d h.

(** Modelled from the spec: [d.reject(error)]. *)
Definition reject (d : nat) (e : Val) (h : Heap) : Heap := alter (settle (Rejected e)) d h.

(** [d.subscribedTo = true]. *)
Definition markSubscribed (d : nat) (h : Heap) : Heap :=
  alter (fun x => mkDeferred (previous x) true (settlement x) (creator x)) d h.

Definition is_subscribed (d : nat) (h : Heap) : bool :=
  match h !! d with
  | Some x => subscribedTo x
  | None => false
  end.

Definition settlement_of (d : nat) (h : Heap) : option Settlement :=
  settlement <$> h !! d.

End Deferreds.

Import Deferreds.

(** ** Argument dedup cache *)

Module Dedup.

(** [meta.opts.cache]: absent, [true], or a function of the arguments.
    The function is given the address the call allocates at, for the
    objects it builds afresh. *)
Inductive CacheOpt :=
| NoCache
| CacheArgs
| CacheBy (f : nat -> list Val -> Val).

(** [ActionMeta]: one per declared action, shared by every invocation. *)
Record ActionMeta := mkMeta {
  isAsync : bool;
  opt_cache : CacheOpt;
  opt_latest : bool;
  callCount : nat;
  cachedArguments : Val
}.

Definition set_cachedArguments (k : Val) (m : ActionMeta) : ActionMeta :=
  mkMeta (isAsync m) (opt_cache m) (opt_latest m) (callCount m) k.

Definition set_callCount (n : nat) (m : ActionMeta) : ActionMeta :=
  mkMeta (isAsync m) (opt_cache m) (opt_latest m) n (cachedArguments m).

(** The [for] loop of lines 127-132: is there an index [i] of the stored
    key with [newCachedArguments[i] !== cachedArguments[i]]? *)
Fixpoint differs_from (i : nat) (cached : list Val) (new : Val) : bool :=
  match cached with
  | [] => false
  | c :: cs => if strict_eq (index new i) c then differs_from (S i) cs new else true
  end.

(** The rest-parameter array of an invocation, allocated at [addr]. *)
Definition args_array (addr : nat) (args : list Val) : Val := VArr addr args.

(** [meta.opts.cache === true ? args : meta.opts.cache(args)], in a call
    that allocates at [addr]. *)
Definition newCachedArguments (c : CacheOpt) (addr : nat) (args : list Val) : Val :=
  match c with
  | CacheBy f => f addr args
  | _ => args_array addr args
  end.

(** [checkCachedArguments(args, meta)]: the verdict ([true]: run the
    action) and the metadata after the call; [None] is the TypeError of
    reading [length] on a new key that is [undefined] or [null]. *)
Definition checkCachedArguments (addr : nat) (args : list Val) (m : ActionMeta)
  : option (bool * ActionMeta) :=
  match opt_cache m with
  | NoCache => Some (true, m)
  | c =>
    let new := newCachedArguments c addr args in
    let cached := cachedArguments m in
    if negb (truthy cached) then
      Some (true, set_cachedArguments new m)
    else
      match cached with
      | VArr _ elems =>
        let len := VNum (Z.of_nat (length elems)) in
        match get_length new with
        | None => None
        | Some newLen =>
          if strict_eq len (VNum 0) && strict_eq newLen (VNum 0) then Some (true, m)
          else if negb (strict_eq len newLen) then
            Some (true, set_cachedArguments new m)
          else if differs_from 0 elems new then
            Some (true, set_cachedArguments new m)
          else Some (false, m)
        end
      | _ =>
        if negb (strict_eq new cached) then
          Some (true, set_cachedArguments new m)
        else Some (false, m)
      end
  end.

End Dedup.

Import Dedup.

(** ** Action dispatch engine *)

Module Engine.

(** How a promise settles. *)
Inductive Outcome :=
| Resolves (v : Val)
| Rejects (e : Val).

(** What [meta.payloadFn] does on one call: it returns a value that is not
    thenable, returns a promise (which the environment settles later), or
    throws. *)
Inductive PayloadFn :=
| Returns (v : Val)
| ReturnsPromise
| Throws (e : Val).

(** The fields of the [Store] instance the engine reads, with the type of
    the action under study.  [parentStore] holds the
    [actionStateSubscriptions] of the parent when there is one.
    [assertionError] is what the [assert] of line 76 throws (utils/assert
    is not part of the sources at hand).  The underlying store, the
    lifecycle subscribers and [handleError] are taken not to throw: their
    calls are recorded and nothing more. *)
Record Store := mkStore {
  hasHandleError : bool;
  selectGlobalState : Val -> Val;
  actionStateSubscriptions : list nat;
  parentStore : option (list nat);
  actionType : ActionType;
  assertionError : Val
}.

(** Calls that leave the engine, in the order they are made. *)
Inductive Effect :=
| CallSubscriber (fn : nat) (s : ActionState)
| StoreDispatch (t : ActionType) (payload : Val)
| HandleError (e : Val) (t : ActionType)
| Resolve (d : nat)
| Reject (d : nat) (e : Val).

(** The two blocks of [dispatch] that suspend: lines 220-238 (handler not
    async, payload is a promise) and lines 241-262 (handler async). *)
Inductive Branch :=
| SyncDeclared
| AsyncDeclared.

(** What a suspended invocation waits for.  [OnUser]: [dispatch] awaits
    the promise of the payload creator itself.  [OnWrapper n]: the async
    wrapper of line 73 is suspended at its own [await] with
    [callNumber = n], and [dispatch] awaits the wrapper's promise.
    [Ready o]: the awaited promise has settled with [o] and the
    continuation of [dispatch] has not run yet. *)
Inductive Awaiting :=
| OnUser
| OnWrapper (callNumber : nat)
| Ready (o : Outcome).

(** The payload handed to [dispatch]. *)
Inductive Payload :=
| PValue (v : Val)
| PPromise (a : Awaiting).

(** One invocation of the action. *)
Inductive Call :=
| Vetoed
| ThrewTypeError
| Threw (e : Val)
| Suspended (b : Branch) (a : Awaiting)
| Settled (o : Outcome).

(** One call of [waitForAction]. *)
Inductive Wait :=
| Immediate
| OnDeferred (d : nat).

(** The mutable state around one action: its metadata, the action
    instance ([state], [deferred]), the deferreds, the invocations, and
    the log of outgoing calls, each labelled with the invocation making
    it (a ghost label). *)
Record World := mkWorld {
  meta : ActionMeta;
  a_state : option ActionState;
  a_deferred : option nat;
  heap : Heap;
  calls : list Call;
  effects : list (nat * Effect);
  waits : list Wait
}.

Definition set_meta (m : ActionMeta) (w : World) : World :=
  mkWorld m (a_state w) (a_deferred w) (heap w) (calls w) (effects w) (waits w).

Definition set_state (s : option ActionState) (w : World) : World :=
  mkWorld (meta w) s (a_deferred w) (heap w) (calls w) (effects w) (waits w).

Definition set_deferred (d : option nat) (w : World) : World :=
  mkWorld (meta w) (a_state w) d (heap w) (calls w) (effects w) (waits w).

Definition set_heap (h : Heap) (w : World) : World :=
  mkWorld (meta w) (a_state w) (a_deferred w) h (calls w) (effects w) (waits w).

Definition add_call (c : Call) (w : World) : World :=
  mkWorld (meta w) (a_state w) (a_deferred w) (heap w) (calls w ++ [c]) (effects w) (waits w).

Definition set_call (i : nat) (c : Call) (w : World) : World :=
  mkWorld (meta w) (a_state w) (a_deferred w) (heap w) (<[i := c]> (calls w)) (effects w) (waits w).

Definition emit (by_call : nat) (e : Effect) (w : World) : World :=
  mkWorld (meta w) (a_state w) (a_deferred w) (heap w) (calls w)
          (effects w ++ [(by_call, e)]) (waits w).

Definition emit_all (by_call : nat) (es : list Effect) (w : World) : World :=
  mkWorld (meta w) (a_state w) (a_deferred w) (heap w) (calls w)
          (effects w ++ map (pair by_call) es) (waits w).

Definition add_wait (x : Wait) (w : World) : World :=
  mkWorld (meta w) (a_state w) (a_deferred w) (heap w) (calls w) (effects w) (waits w ++ [x]).

Section WithStore.

Variable st : Store.

(** [wrapPayloadCreator(meta, type)] applied to the arguments of call [c]:
    the payload, or the error thrown to the caller. *)
Definition wrapPayloadCreator (c : nat) (r : PayloadFn) (w : World) : World * (Payload + Val) :=
  if negb (hasHandleError st) then
    match r with
    | Returns v => (w, inl (PValue v))
    | ReturnsPromise => (w, inl (PPromise OnUser))
    | Throws e => (w, inr e)
    end
  else if isAsync (meta w) then
    match r with
    | Throws e =>
      (emit c (HandleError e (actionType st)) w, inl (PPromise (Ready (Rejects e))))
    | Returns _ =>
      let e := assertionError st in
      (emit c (HandleError e (actionType st)) w, inl (PPromise (Ready (Rejects e))))
    | ReturnsPromise =>
      let callNumber := S (callCount (meta w)) in
      (set_meta (set_callCount callNumber (meta w)) w, inl (PPromise (OnWrapper callNumber)))
    end
  else
    let w1 := set_meta (set_callCount (S (callCount (meta w))) (meta w)) w in
    match r with
    | Returns v => (w1, inl (PValue v))
    | ReturnsPromise => (w1, inl (PPromise OnUser))
    | Throws e => (emit c (HandleError e (actionType st)) w1, inr e)
    end.

(** The list lines 202-206 iterate over. *)
Definition lifecycle_subscribers : list nat :=
  match parentStore st with
  | Some parentSubs => parentSubs
  | None => actionStateSubscriptions st
  end.

(** [setActionStateAndDispatch(action, type, state, payload)]. *)
Definition setActionStateAndDispatch (c : nat) (s : ActionState) (payload : Val) (w : World)
  : World :=
  emit c (StoreDispatch (getTypeWithState (actionType st) s) payload)
    (emit_all c (map (fun fn => CallSubscriber fn s) lifecycle_subscribers)
       (set_state (Some s) w)).

(** [if (action.deferred) action.deferred.resolve(); action.deferred = null]. *)
Definition resolve_and_clear (c : nat) (w : World) : World :=
  set_deferred None
    match a_deferred w with
    | Some d => emit c (Resolve d) (set_heap (resolve d (heap w)) w)
    | None => w
    end.

(** [if (action.deferred && action.deferred.subscribedTo)
       action.deferred.reject(error);
     action.deferred = null]. *)
Definition reject_and_clear (c : nat) (e : Val) (w : World) : World :=
  set_deferred None
    match a_deferred w with
    | Some d =>
      if is_subscribed d (heap w)
      then emit c (Reject d e) (set_heap (reject d e (heap w)) w)
      else w
    | None => w
    end.

(** [actionCreatorArgs.length <= 1 ? actionCreatorArgs[1] : actionCreatorArgs]. *)
Definition startPayload (addr : nat) (actionCreatorArgs : list Val) : Val :=
  if (length actionCreatorArgs <=? 1)%nat
  then nth 1 actionCreatorArgs VUndefined
  else args_array addr actionCreatorArgs.

(** [dispatch], up to its first [await] (or to its end on the
    synchronous path). *)
Definition dispatch (c : nat) (payload : Payload) (addr : nat) (actionCreatorArgs : list Val)
    (w : World) : World :=
  let (d, h) := create (a_deferred w) c (heap w) in
  let w := set_deferred (Some d) (set_heap h w) in
  match payload with
  | PPromise a =>
    if isAsync (meta w) then
      add_call (Suspended AsyncDeclared a)
        (setActionStateAndDispatch c START (startPayload addr actionCreatorArgs) w)
    else add_call (Suspended SyncDeclared a) w
  | PValue v =>
    add_call (Settled (Resolves v))
      (resolve_and_clear c
         (emit c (StoreDispatch (getType (actionType st)) (selectGlobalState st v)) w))
  end.

(** [dispatch] after its [await]: the [try] body from [data] on, or the
    [catch] block. *)
Definition continue_dispatch (c : nat) (b : Branch) (o : Outcome) (w : World) : World :=
  match o with
  | Resolves v =>
    let data := or_null v in
    let w1 :=
      if negb (strict_eq data VNull) then
        match b with
        | SyncDeclared =>
          emit c (StoreDispatch (getType (actionType st)) (selectGlobalState st data)) w
        | AsyncDeclared =>
          setActionStateAndDispatch c SUCCESS (selectGlobalState st data) w
        end
      else w in
    set_call c (Settled (Resolves data)) (resolve_and_clear c w1)
  | Rejects error =>
    let w1 :=
      match b with
      | SyncDeclared => w
      | AsyncDeclared => setActionStateAndDispatch c ERROR error w
      end in
    set_call c (Settled (Rejects error)) (reject_and_clear c error w1)
  end.

(** The async wrapper of lines 73-87 after its [await]. *)
Definition continue_wrapper (c : nat) (callNumber : nat) (o : Outcome) (w : World)
  : World * Outcome :=
  match o with
  | Resolves ret =>
    if opt_latest (meta w) && negb (callNumber =? callCount (meta w))%nat
    then (w, Resolves VNull)
    else (w, Resolves ret)
  | Rejects e => (emit c (HandleError e (actionType st)) w, Rejects e)
  end.

(** The action function of lines 145-153 called with [args]. *)
Definition invoke (addr : nat) (args : list Val) (r : PayloadFn) (w : World) : World :=
  let c := length (calls w) in
  match checkCachedArguments addr args (meta w) with
  | None => add_call ThrewTypeError w
  | Some (false, m) => add_call Vetoed (set_meta m w)
  | Some (true, m) =>
    match wrapPayloadCreator c r (set_meta m w) with
    | (w1, inr e) => add_call (Threw e) w1
    | (w1, inl payload) => dispatch c payload addr args w1
    end
  end.

(** The promise of the payload creator of call [c] has settled with [o]
    and what awaits it takes notice.  For a call through the async wrapper
    this is the wrapper resuming after its [await] (lines 78-85), where
    the [latest] test is made and [handleError] is called: an invocation
    made in the same turn, after the promise settled and before the
    wrapper resumed, comes before this event. *)
Definition settle_payload (c : nat) (o : Outcome) (w : World) : World :=
  match calls w !! c with
  | Some (Suspended b OnUser) => set_call c (Suspended b (Ready o)) w
  | Some (Suspended b (OnWrapper callNumber)) =>
    let (w1, o1) := continue_wrapper c callNumber o w in
    set_call c (Suspended b (Ready o1)) w1
  | _ => w
  end.

(** The continuation of [dispatch] of call [c] runs. *)
Definition resume (c : nat) (w : World) : World :=
  match calls w !! c with
  | Some (Suspended b (Ready o)) => continue_dispatch c b o w
  | _ => w
  end.

(** [waitForAction(action)]. *)
Definition waitForAction (w : World) : World :=
  match a_deferred w with
  | None => add_wait Immediate w
  | Some d => add_wait (OnDeferred d) (set_heap (markSubscribed d (heap w)) w)
  end.

(** What can happen next: an invocation, the settling of a payload
    promise as seen by what awaits it (see [settle_payload]), the
    continuation of [dispatch] for a call, a call of [waitForAction]. *)
Inductive Event :=
| Invoke (addr : nat) (args : list Val) (r : PayloadFn)
| SettlePayload (c : nat) (o : Outcome)
| Resume (c : nat)
| WaitForAction.

Definition step (w : World) (ev : Event) : World :=
  match ev with
  | Invoke addr args r => invoke addr args r w
  | SettlePayload c o => settle_payload c o w
  | Resume c => resume c w
  | WaitForAction => waitForAction w
  end.

Definition run (w : World) (evs : list Event) : World := fold_left step evs w.

End WithStore.

(** The promise an invocation returned to its caller, once settled. *)
Definition result_of (c : Call) : option Outcome :=
  match c with
  | Vetoed => Some (Resolves VUndefined)
  | Settled o => Some o
  | _ => None
  end.

(** The promise [waitForAction] returned, once settled. *)
Definition wait_result (w : World) (k : nat) : option Outcome :=
  match waits w !! k with
  | Some Immediate => Some (Resolves VUndefined)
  | Some (OnDeferred d) =>
    match settlement_of d (heap w) with
    | Some Resolved => Some (Resolves VUndefined)
    | Some (Rejected e) => Some (Rejects e)
    | _ => None
    end
  | None => None
  end.

(** The actions call [c] dispatched to the underlying store. *)
Definition dispatched_by (c : nat) (log : list (nat * Effect)) : list (ActionType * Val) :=
  flat_map (fun x => match x with
                     | (c', StoreDispatch t p) => if Nat.eqb c' c then [(t, p)] else []
                     | _ => []
                     end) log.

(** The lifecycle suffixes of the types call [c] dispatched. *)
Definition lifecycle_by (c : nat) (log : list (nat * Effect)) : list (option ActionState) :=
  map (fun tp => suffix (fst tp)) (dispatched_by c log).

(** The world of a freshly declared action. *)
Definition fresh (m : ActionMeta) : World :=
  mkWorld m None None [] [] [] [].

(** Does the event run a continuation of call [c]? *)
Definition addresses (c : nat) (ev : Event) : bool :=
  match ev with
  | SettlePayload c' _ | Resume c' => Nat.eqb c' c
  | _ => false
  end.

(** *** Summaries used to state what a step does *)

(** What an invocation of an async-declared action whose payload creator
    returned a promise is left waiting for. *)
Definition awaiting_of (st : Store) (m : ActionMeta) : Awaiting :=
  if hasHandleError st then OnWrapper (S (callCount m)) else OnUser.

(** What reaches [dispatch] once the promise of the payload creator has
    settled with [o] in world [w]. *)
Definition wrapped_outcome (a : Awaiting) (o : Outcome) (w : World) : Outcome :=
  match a, o with
  | OnWrapper callNumber, Resolves ret =>
    if opt_latest (meta w) && negb (callNumber =? callCount (meta w))%nat
    then Resolves VNull else Resolves ret
  | _, _ => o
  end.

(** What the continuation of [dispatch] hands back to the caller. *)
Definition returned (o : Outcome) : Outcome :=
  match o with
  | Resolves v => Resolves (or_null v)
  | Rejects e => Rejects e
  end.

(** What the continuation of the async block dispatches to the store. *)
Definition async_tail (st : Store) (o : Outcome) : list (ActionType * Val) :=
  match o with
  | Resolves v =>
    if truthy v
    then [(getTypeWithState (actionType st) SUCCESS, selectGlobalState st v)]
    else []
  | Rejects e => [(getTypeWithState (actionType st) ERROR, e)]
  end.

(** The calls of one [setActionStateAndDispatch]. *)
Definition lifecycle_effects (st : Store) (s : ActionState) (payload : Val) : list Effect :=
  map (fun fn => CallSubscriber fn s) (lifecycle_subscribers st)
  ++ [StoreDispatch (getTypeWithState (actionType st) s) payload].

(** The calls a continuation makes before it turns to the deferred. *)
Definition announce (st : Store) (b : Branch) (o : Outcome) : list Effect :=
  match o, b with
  | Resolves v, SyncDeclared =>
    if truthy v then [StoreDispatch (getType (actionType st)) (selectGlobalState st v)] else []
  | Resolves v, AsyncDeclared =>
    if truthy v then lifecycle_effects st SUCCESS (selectGlobalState st v) else []
  | Rejects e, SyncDeclared => []
  | Rejects e, AsyncDeclared => lifecycle_effects st ERROR e
  end.

(** The lifecycle state a continuation leaves on the action instance. *)
Definition state_after (b : Branch) (o : Outcome) (old : option ActionState) : option ActionState :=
  match b, o with
  | AsyncDeclared, Resolves v => if truthy v then Some SUCCESS else old
  | AsyncDeclared, Rejects _ => Some ERROR
  | SyncDeclared, _ => old
  end.

(** The call a continuation makes on the deferred the action references,
    and the deferreds afterwards. *)
Definition deferred_effects (o : Outcome) (w : World) : list Effect :=
  match a_deferred w, o with
  | None, _ => []
  | Some d, Resolves _ => [Resolve d]
  | Some d, Rejects e => if is_subscribed d (heap w) then [Reject d e] else []
  end.

Definition heap_after (o : Outcome) (w : World) : Heap :=
  match a_deferred w, o with
  | None, _ => heap w
  | Some d, Resolves _ => resolve d (heap w)
  | Some d, Rejects e => if is_subscribed d (heap w) then reject d e (heap w) else heap w
  end.


(** The effects recorded in [w'] since [w]. *)
Definition effects_since (w w' : World) : list (nat * Effect) :=
  drop (length (effects w)) (effects w').

(** The store dispatches among some effects, and the calls made on
    deferreds in a log. *)
Definition store_dispatches (es : list Effect) : list (ActionType * Val) :=
  flat_map (fun e => match e with StoreDispatch t p => [(t, p)] | _ => [] end) es.

Definition deferred_calls (log : list (nat * Effect)) : list Effect :=
  flat_map (fun x => match snd x with
                     | Resolve d => [Resolve d]
                     | Reject d e => [Reject d e]
                     | _ => []
                     end) log.

End Engine.

Import Engine.

(** ** Reducer composition *)

Module Reducers.

(** A dispatched action, [{ type, payload }]. *)
Record Action := mkAction {
  type : ActionType;
  payload : Val
}.

(** A declared handler, called as [handler(state, payload, type)]. *)
Definition Handler := Val -> Val -> ActionType -> Val.

(** What [createReducer] reads from the store: [initialState], the table
    [handlerWithScopedTypes] and the field [defaultActionHandler]. *)
Record StoreDef := mkStoreDef {
  initialState : Val;
  handlerWithScopedTypes : ActionType -> option Handler;
  defaultActionHandler : Val -> Val
}.

Section WithInternalTypes.

(** utils/is-redux-internal-action is not part of the sources at hand: the
    recognizer of reserved types is a parameter. *)
Variable isReduxInternalAction : ActionType -> bool.

(** [initialReducer] of lines 295-306. *)
Definition initialReducer (d : StoreDef) (state : Val) (action : Action) : Val :=
  if is_nullish state then initialState d
  else if isReduxInternalAction (type action) then state
  else
    match handlerWithScopedTypes d (getType (type action)) with
    | Some handler => handler state (payload action) (type action)
    | None => defaultActionHandler d state
    end.

(** [reducer] of lines 276-282 over a [reducersList]. *)
Definition reducer (reducersList : list (Val -> Action -> Val)) (state : Val) (action : Action)
  : Val :=
  fold_left (fun accState r => r accState action) reducersList state.

End WithInternalTypes.

End Reducers.

Import Reducers.

(** ** Nested stores and the subscription notifier *)

Module Nested.

(** The [state] property of a store as seen from the [state] field of the
    root store, which is the only place state is kept: how to read it and
    what a write does to the root field. *)
Record StateProp := mkProp {
  get : Val -> Val;
  set : Val -> Val -> Val
}.

(** The plain [state] field of a store that was never attached. *)
Definition own_state : StateProp :=
  mkProp (fun s => s) (fun v _ => v).

(** The accessor [addInnerStore] installs on the child (lines 368-378),
    over the [state] property of the parent. *)
Definition attached (parent : StateProp) (selectLocalState selectGlobalState : Val -> Val)
  : StateProp :=
  mkProp
    (fun s => let parentState := get parent s in
              if truthy parentState then selectLocalState parentState else VUndefined)
    (fun v s => set parent (selectGlobalState v) s).

(** The accessor installed with the default projections [x => x]. *)
Definition attached_by_default (parent : StateProp) : StateProp :=
  attached parent (fun x => x) (fun x => x).

(** A store with the stores attached below it.  [selectLocalState] is
    [None] when the field holds a falsy value. *)
Inductive Store :=
| mkStore (subscriptions : list nat)
          (selectLocalState : option (Val -> Val))
          (selectGlobalState : Val -> Val)
          (innerStores : list Store).

Definition subscriptions (s : Store) : list nat :=
  match s with mkStore x _ _ _ => x end.
Definition selectLocalState (s : Store) : option (Val -> Val) :=
  match s with mkStore _ x _ _ => x end.
Definition selectGlobalState (s : Store) : Val -> Val :=
  match s with mkStore _ _ x _ => x end.
Definition innerStores (s : Store) : list Store :=
  match s with mkStore _ _ _ x => x end.

(** [addInnerStore(store, selectLocalState, selectGlobalState)] on
    [this], as far as the notifier is concerned: the projections are
    recorded on the child, which joins [innerStores]; the [state] property
    of the child becomes the accessor [attached] above. *)
Definition addInnerStore (this store : Store)
    (selectLocal : option (Val -> Val)) (selectGlobal : Val -> Val) : Store :=
  mkStore (subscriptions this) (selectLocalState this) (selectGlobalState this)
          (innerStores this
           ++ [mkStore (subscriptions store) selectLocal selectGlobal (innerStores store)]).

(** One call [sub(state, prevState)].  [at_store] is a ghost label: the
    position of the store owning the subscriber, as the indices into
    [innerStores] from the store notified first. *)
Record Notification := mkNotification {
  at_store : list nat;
  subscriber : nat;
  state_arg : Val;
  prev_arg : Val
}.

(** What [if (x) y = f(x)] leaves in [y]. *)
Definition project (f : Val -> Val) (x : Val) : Val :=
  if truthy x then f x else VUndefined.

(** [notifySubscribers(prevState)] on the store at [path], whose [state]
    property reads [state] during the call. *)
Fixpoint notifySubscribers (path : list nat) (this : Store) (state prevState : Val)
  : list Notification :=
  let fix forEach (i : nat) (stores : list Store) : list Notification :=
    match stores with
    | [] => []
    | store :: rest =>
      match selectLocalState store with
      | Some f =>
        notifySubscribers (path ++ [i]) store (project f state) (project f prevState)
      | None => []
      end ++ forEach (S i) rest
    end in
  map (fun sub => mkNotification path sub state prevState) (subscriptions this)
  ++ forEach 0 (innerStores this).

(** A root store: its [state] field, [subscriptionsEnabled], and the
    rest. *)
Record Root := mkRoot {
  state : Val;
  subscriptionsEnabled : bool;
  store : Store
}.

(** [setState(state)] on a root store, with the subscriber calls made. *)
Definition setState (r : Root) (newState : Val) : Root * list Notification :=
  let prevState := state r in
  let r' := mkRoot newState (subscriptionsEnabled r) (store r) in
  (r', if subscriptionsEnabled r' then notifySubscribers [] (store r') newState prevState
       else []).

(** [setPartialState(state)] on a root store; the merged object is
    allocated at [addr]. *)
Definition setPartialState (addr : nat) (r : Root) (partial : Val) : Root * list Notification :=
  setState r (object_assign addr (state r) partial).

(** [child.state = v] for a store whose [state] property is [p]: the
    setter of lines 374-376 assigns the root field and calls nothing. *)
Definition assign_state (p : StateProp) (v : Val) (r : Root) : Root * list Notification :=
  (mkRoot (set p v (state r)) (subscriptionsEnabled r) (store r), []).

(** The store reached from [s] by the indices [path], and what its
    [state] property reads when [s] reads [x]. *)
Fixpoint store_at (s : Store) (path : list nat) : option Store :=
  match path with
  | [] => Some s
  | i :: path' =>
    match innerStores s !! i with
    | Some c => store_at c path'
    | None => None
    end
  end.

Fixpoint state_at (s : Store) (path : list nat) (x : Val) : option Val :=
  match path with
  | [] => Some x
  | i :: path' =>
    match innerStores s !! i with
    | Some c =>
      match selectLocalState c with
      | Some f => state_at c path' (project f x)
      | None => None
      end
    | None => None
    end
  end.

(** Induction on a store with the stores below it. *)
Fixpoint Store_nested_ind (P : Store -> Prop)
    (H : forall subs f g inner, Forall P inner -> P (mkStore subs f g inner))
    (s : Store) : P s :=
  match s with
  | mkStore subs f g inner =>
    H subs f g inner
      ((fix go (l : list Store) : Forall P l :=
          match l with
          | [] => @List.Forall_nil _ P
          | x :: l' => @List.Forall_cons _ P x l' (Store_nested_ind P H x) (go l')
          end) inner)
  end.

(** The body of the [forEach] over [innerStores] in [notifySubscribers],
    for the store at index [i], and the loop from index [i] on. *)
Definition notify_child (path : list nat) (state prevState : Val) (i : nat) (store : Store)
  : list Notification :=
  match selectLocalState store with
  | Some f => notifySubscribers (path ++ [i]) store (project f state) (project f prevState)
  | None => []
  end.

Fixpoint forEach_from (path : list nat) (state prevState : Val) (i : nat) (stores : list Store)
  : list Notification :=
  match stores with
  | [] => []
  | store :: rest =>
    notify_child path state prevState i store ++ forEach_from path state prevState (S i) rest
  end.

(** In [l], every element satisfying [P] comes before every element
    satisfying [Q]: nothing after a [Q] satisfies [P]. *)
Definition all_before {A : Type} (P Q : A -> Prop) (l : list A) : Prop :=
  forall l1 x l2, l = l1 ++ x :: l2 -> Q x -> Forall (fun y => ~ P y) l2.

(** Document order on positions: a store comes before the stores below
    it, and the stores below an earlier child before those below a later
    one. *)
Fixpoint path_le (p q : list nat) : bool :=
  match p, q with
  | [], _ => true
  | _ :: _, [] => false
  | i :: p', j :: q' =>
    if (i <? j)%nat then true else if (i =? j)%nat then path_le p' q' else false
  end.

Definition in_order (a b : Notification) : Prop :=
  path_le (at_store a) (at_store b) = true.

(** Sample stores: a root with one subscriber and a child store attached
    with the default projections, itself with one subscriber. *)
Definition leaf : Store := mkStore [2] (Some (fun x => x)) (fun x => x) [].

Definition tree : Store :=
  addInnerStore (mkStore [1] (Some (fun x => x)) (fun x => x) []) leaf
                (Some (fun x => x)) (fun x => x).

Definition counter (n : Z) (enabled : bool) : Root := mkRoot (VNum n) enabled tree.

Definition ab : Val := VObj 1 [("a", VNum 1); ("b", VNum 2)].

Definition b3 : Val := VObj 2 [("b", VNum 3)].

End Nested.


(** ** Sample stores and actions *)

Module Samples.

(** The store "profile" with its async action [load]. *)
Definition profile : Engine.Store :=
  Engine.mkStore true (fun x => x) [7] None (scoped "load" "profile") (VStr "not a promise").

Definition load_meta : ActionMeta := mkMeta true NoCache false 0 VUndefined.


Definition load_cached : ActionMeta := mkMeta true CacheArgs false 1 (VArr 0 [VNum 1]).

Definition load_no_args : ActionMeta := mkMeta true CacheArgs false 1 (VArr 0 []).

Definition user : Val := VObj 1 [("name", VStr "x")].

Definition boom : Val := VStr "boom".

Definition world_cached : World :=
  mkWorld load_cached (Some SUCCESS) None [] [] [] [].

(** A world in which the first invocation is still in flight. *)
Definition world_in_flight : World :=
  invoke profile 0 [VNum 1] ReturnsPromise (fresh load_meta).

(** A world in which the first invocation has failed and waits for its
    continuation, nobody having subscribed to its deferred. *)
Definition world_failed : World :=
  settle_payload profile 0 (Rejects boom) world_in_flight.


Definition guest : Val := VObj 2 [("name", VStr "y")].

(** Two invocations of [load] in flight together. *)
Definition two_in_flight (m : ActionMeta) : World :=
  run profile (fresh m)
      [Invoke 0 [VNum 1] ReturnsPromise; Invoke 1 [VNum 2] ReturnsPromise].

End Samples.

Import Samples.

(** ** Declared handlers *)

Module Declared.

(** The object given to [@action] for an async action, read at the keys
    [ActionTypeManager.START], [SUCCESS] and [ERROR]: [None] where the
    key holds no handler.  A handler found there is called as
    [handler(state, payload)]. *)
Record AsyncActionHandlers := mkHandlers {
  on_start : option (Val -> Val -> Val);
  on_success : option (Val -> Val -> Val);
  on_error : option (Val -> Val -> Val)
}.







(** What [@action] is given: a reducer, or an object of lifecycle
    handlers (one that passes the assertion of line 430). *)
Inductive ActionHandler :=
| Plain (h : Handler)
| Lifecycle (hs : AsyncActionHandlers).


Definition declaredAsync (a : ActionHandler) : bool :=
  match a with
  | Plain _ => false
  | Lifecycle _ => true
  end.

(** The metadata line 440 records for the action: no call counted, no
    key stored. *)
Definition declare (a : ActionHandler) (cache : CacheOpt) (latest : bool) : ActionMeta :=
  mkMeta (declaredAsync a) cache latest 0 VUndefined.


End Declared.

Import Declared.

(** ** Stores with the stores attached below them *)

Module Tree.

(** The reducer side of a store: what [createReducer] reads, and the
    stores attached below, in the order they were attached. *)
Inductive StoreTree :=
| mkTree (def : StoreDef) (inner : list StoreTree).

(** [store.reducer]: [reducersList] holds [initialReducer] (pushed by the
    constructor) and then the [reducer] of every store attached since
    (pushed by [addInnerStore]). *)
Fixpoint reducer_of (isReduxInternalAction : ActionType -> bool) (s : StoreTree)
  : Val -> Action -> Val :=
  match s with
  | mkTree d inner =>
    reducer (initialReducer isReduxInternalAction d
             :: map (reducer_of isReduxInternalAction) inner)
  end.

(** Induction on a store with the stores below it. *)
Fixpoint StoreTree_nested_ind (P : StoreTree -> Prop)
    (H : forall d inner, Forall P inner -> P (mkTree d inner))
    (s : StoreTree) : P s :=
  match s with
  | mkTree d inner =>
    H d inner
      ((fix go (l : list StoreTree) : Forall P l :=
          match l with
          | [] => @List.Forall_nil _ P
          | x :: l' => @List.Forall_cons _ P x l' (StoreTree_nested_ind P H x) (go l')
          end) inner)
  end.

(** [array.find(Boolean)]. *)
Fixpoint find_truthy (l : list Val) : Val :=
  match l with
  | [] => VUndefined
  | x :: l' => if truthy x then x else find_truthy l'
  end.

(** [getActionState(action)] of lines 163-166 on a store, [state] being
    the [state] property of the action. *)
Fixpoint getActionState (this : Nested.Store) (state : Val) : Val :=
  match this with
  | Nested.mkStore _ _ _ innerStores =>
    if truthy state then state
    else find_truthy (map (fun s => getActionState s state) innerStores)
  end.

(** The subscription side of a store: both subscriber lists, the
    projections and the stores attached below. *)
Inductive StoreNode :=
| mkNode (subscriptions actionStateSubscriptions : list nat)
         (selectLocalState : option (Val -> Val))
         (selectGlobalState : Val -> Val)
         (innerStores : list StoreNode).

Fixpoint StoreNode_nested_ind (P : StoreNode -> Prop)
    (H : forall subs asubs f g inner, Forall P inner -> P (mkNode subs asubs f g inner))
    (s : StoreNode) : P s :=
  match s with
  | mkNode subs asubs f g inner =>
    H subs asubs f g inner
      ((fix go (l : list StoreNode) : Forall P l :=
          match l with
          | [] => @List.Forall_nil _ P
          | x :: l' => @List.Forall_cons _ P x l' (StoreNode_nested_ind P H x) (go l')
          end) inner)
  end.

(** The store as [notifySubscribers] sees it. *)
Fixpoint notifier (s : StoreNode) : Nested.Store :=
  match s with
  | mkNode subs _ f g inner => Nested.mkStore subs f g (map notifier inner)
  end.

(** Every function registered in the store or below it, on either
    list. *)
Fixpoint listeners (s : StoreNode) : list nat :=
  match s with
  | mkNode subs asubs _ _ inner => subs ++ asubs ++ flat_map listeners inner
  end.

(** [subscribe(fn)] and [subscribeToActionState(fn)]. *)
Definition subscribe (fn : nat) (s : StoreNode) : StoreNode :=
  match s with
  | mkNode subs asubs f g inner => mkNode (subs ++ [fn]) asubs f g inner
  end.

Definition subscribeToActionState (fn : nat) (s : StoreNode) : StoreNode :=
  match s with
  | mkNode subs asubs f g inner => mkNode subs (asubs ++ [fn]) f g inner
  end.

(** [subscriptions.indexOf(fn)]; [None] is [-1]. *)
Fixpoint indexOf (fn : nat) (subscriptions : list nat) : option nat :=
  match subscriptions with
  | [] => None
  | x :: rest => if (x =? fn)%nat then Some 0 else S <$> indexOf fn rest
  end.

(** [unsubscribeSingle(fn, subscriptions)]. *)
Definition unsubscribeSingle (fn : nat) (subscriptions : list nat) : list nat :=
  match indexOf fn subscriptions with
  | Some index => delete index subscriptions
  | None => subscriptions
  end.

(** [unsubscribe(fn)]; [None] is the call without a function. *)
Fixpoint unsubscribe (fn : option nat) (s : StoreNode) : StoreNode :=
  match s with
  | mkNode subs asubs f g inner =>
    match fn with
    | Some fn' => mkNode (unsubscribeSingle fn' subs) (unsubscribeSingle fn' asubs) f g inner
    | None => mkNode [] [] f g (map (unsubscribe None) inner)
    end
  end.

(** The [state] property of the store reached from [s] by the indices
    [path], [p] being the [state] property of [s]; [None] when the path
    leaves the tree or meets a store without [selectLocalState]. *)
Fixpoint prop_at (s : Nested.Store) (p : Nested.StateProp) (path : list nat)
  : option Nested.StateProp :=
  match path with
  | [] => Some p
  | i :: path' =>
    match Nested.innerStores s !! i with
    | Some c =>
      match Nested.selectLocalState c with
      | Some f => prop_at c (Nested.attached p f (Nested.selectGlobalState c)) path'
      | None => None
      end
    | None => None
    end
  end.

(** [setState(state)] of lines 176-181 called on the store at [path]
    below the root [r]; [enabled] is the [subscriptionsEnabled] field of
    that store. *)
Definition setState_at (r : Nested.Root) (path : list nat) (enabled : bool) (newState : Val)
  : option (Nested.Root * list Nested.Notification) :=
  match Nested.store_at (Nested.store r) path, prop_at (Nested.store r) Nested.own_state path with
  | Some this, Some p =>
    let prevState := Nested.get p (Nested.state r) in
    let r' := Nested.mkRoot (Nested.set p newState (Nested.state r))
                            (Nested.subscriptionsEnabled r) (Nested.store r) in
    Some (r', if enabled
              then Nested.notifySubscribers path this (Nested.get p (Nested.state r')) prevState
              else [])
  | _, _ => None
  end.

(** [disableSubscriptions()] and [enableSubscriptions()] on a root
    store. *)
Definition disableSubscriptions (r : Nested.Root) : Nested.Root :=
  Nested.mkRoot (Nested.state r) false (Nested.store r).

Definition enableSubscriptions (r : Nested.Root) : Nested.Root :=
  Nested.mkRoot (Nested.state r) true (Nested.store r).

(** Who is called by some notifications: the store and the subscriber
    of each call, in order. *)
Definition called (ns : list Nested.Notification) : list (list nat * nat) :=
  map (fun n => (Nested.at_store n, Nested.subscriber n)) ns.

(** [setState] called on a root store with each of [states] in turn,
    with the subscriber calls made. *)
Definition setStates (r : Nested.Root) (states : list Val)
  : Nested.Root * list Nested.Notification :=
  fold_left (fun acc newState =>
               let (r', calls) := Nested.setState (fst acc) newState in
               (r', snd acc ++ calls))
            states (r, []).

(** The [state] property of a store attached [depth] levels below a
    root, every level with the default projections. *)
Fixpoint default_chain (depth : nat) : Nested.StateProp :=
  match depth with
  | 0 => Nested.own_state
  | S depth' => Nested.attached_by_default (default_chain depth')
  end.

End Tree.

Import Tree.

(** ** Reading runs of the engine *)

Module Runs.

(** [a === b] on every pair of elements of two argument lists of the
    same length. *)
Fixpoint all_identical (xs ys : list Val) : bool :=
  match xs, ys with
  | [], [] => true
  | x :: xs', y :: ys' => strict_eq x y && all_identical xs' ys'
  | _, _ => false
  end.

(** A key a call can be recognised by when it is made again: a
    non-empty array, a non-empty string, or another truthy value that has
    no numeric [length]. *)
Definition plain_key (k : Val) : bool :=
  match k with
  | VArr _ l => negb (length l =? 0)%nat
  | VObj _ fs =>
    match lookup_field "length" fs with
    | VNum _ => false
    | _ => true
    end
  | _ => truthy k
  end.

(** The key [k2] is identical to the key [k1] of the call before: [===]
    element by element for two arrays, [k2 === k1] otherwise. *)
Definition same_key (k1 k2 : Val) : bool :=
  match k1, k2 with
  | VArr _ l1, VArr _ l2 => all_identical l2 l1
  | VArr _ _, _ => false
  | _, _ => strict_eq k2 k1
  end.

Definition is_invoke (ev : Event) : bool :=
  match ev with
  | Invoke _ _ _ => true
  | _ => false
  end.

(** An event that starts no invocation, runs no continuation of
    [dispatch] and is not the settling of the promise of call [c]: the
    promise of another call settles, or somebody waits for the action. *)
Definition bystander (c : nat) (ev : Event) : bool :=
  match ev with
  | SettlePayload c' _ => negb (c' =? c)%nat
  | WaitForAction => true
  | _ => false
  end.

(** The invocations among some events. *)
Definition invocations (evs : list Event) : nat := length (List.filter is_invoke evs).

(** The deferred the action references, if any, is unsettled. *)
Definition deferred_pending (w : World) : Prop :=
  match a_deferred w with
  | Some d => settlement_of d (heap w) = Some Pending
  | None => True
  end.

(** A call that is not a call of a subscriber outside [subs]. *)
Definition calls_within (subs : list nat) (e : Effect) : Prop :=
  match e with
  | CallSubscriber fn _ => In fn subs
  | _ => True
  end.

(** A call that announces no lifecycle state: no subscriber call, and a
    dispatch only under the base type [t]. *)
Definition plain_call (t : ActionType) (e : Effect) : Prop :=
  match e with
  | CallSubscriber _ _ => False
  | StoreDispatch t' _ => t' = t
  | _ => True
  end.

Definition all_within (subs : list nat) (log : list (nat * Effect)) : Prop :=
  Forall (fun x => calls_within subs (snd x)) log.

Definition all_plain (t : ActionType) (log : list (nat * Effect)) : Prop :=
  Forall (fun x => plain_call t (snd x)) log.

(** What holds of the world of an action that is not async-declared. *)
Definition plain_world (st : Engine.Store) (w : World) : Prop :=
  isAsync (meta w) = false /\
  a_state w = None /\
  Forall (fun c => forall a, c <> Suspended AsyncDeclared a) (calls w) /\
  all_plain (getType (actionType st)) (effects w).

(** The error an async-declared invocation fails with when its payload
    creator does not return a promise. *)
Definition creator_error (st : Engine.Store) (r : PayloadFn) : Val :=
  match r with
  | Throws e => e
  | _ => assertionError st
  end.

End Runs.

Import Runs.

(** * Properties *)

(** ** Lists addressed at their end *)

Section ListAt.

Context {A : Type}.
Implicit Types (l r : list A).

Lemma lookup_at_0 l x r : (l ++ x :: r) !! length l = Some x.
Proof. now apply list_lookup_middle. Qed.

Lemma lookup_at_1 l x y r : (l ++ x :: y :: r) !! S (length l) = Some y.
Proof. induction l; [reflexivity | assumption]. Qed.

Lemma insert_at_0 l x r z : <[length l := z]> (l ++ x :: r) = l ++ z :: r.
Proof. induction l; [reflexivity | cbn; now f_equal]. Qed.

Lemma insert_at_1 l x y r z : <[S (length l) := z]> (l ++ x :: y :: r) = l ++ x :: z :: r.
Proof. induction l; [reflexivity | cbn; now f_equal]. Qed.

Lemma alter_at_0 (f : A -> A) l x r : alter f (length l) (l ++ x :: r) = l ++ f x :: r.
Proof. induction l; [reflexivity | cbn; now f_equal]. Qed.

Lemma alter_at_1 (f : A -> A) l x y r :
  alter f (S (length l)) (l ++ x :: y :: r) = l ++ x :: f y :: r.
Proof. induction l; [reflexivity | cbn; now f_equal]. Qed.

Lemma length_snoc l x : length (l ++ [x]) = S (length l).
Proof. rewrite length_app. cbn. lia. Qed.

Lemma drop_at l r : drop (length l) (l ++ r) = r.
Proof. induction l; [reflexivity | assumption]. Qed.

End ListAt.

Ltac list_norm :=
  repeat first
    [ rewrite length_snoc
    | rewrite <- app_assoc; cbn [app]
    | rewrite lookup_at_0 | rewrite lookup_at_1
    | rewrite insert_at_0 | rewrite insert_at_1
    | rewrite alter_at_0 | rewrite alter_at_1
    | rewrite drop_at ].

Ltac list_tidy := rewrite ?map_app, ?map_map, ?app_nil_r, <- ?app_assoc.



(** ** JavaScript truthiness *)

Lemma or_null_cases v :
  (truthy v = true /\ or_null v = v /\ strict_eq (or_null v) VNull = false)
  \/ (truthy v = false /\ or_null v = VNull).
Proof.
  unfold or_null. destruct (truthy v) eqn:E; [left | right; auto].
  repeat split. destruct v; try reflexivity; discriminate.
Qed.

Lemma or_null_truthy v : truthy v = true -> or_null v = v.
Proof. unfold or_null. now intros ->. Qed.

Lemma or_null_falsy v : truthy v = false -> or_null v = VNull.
Proof. unfold or_null. now intros ->. Qed.

(** ** The dedup check *)

(** A veto never touches the metadata. *)
Lemma checkCachedArguments_veto addr args m m' :
  checkCachedArguments addr args m = Some (false, m') -> m' = m.
Proof.
  unfold checkCachedArguments.
  destruct (opt_cache m); [congruence | |];
    (destruct (negb (truthy (cachedArguments m))); [congruence |]);
    (destruct (cachedArguments m);
     repeat match goal with
            | |- context [match ?x with _ => _ end] => destruct x
            end; congruence).
Qed.

(** Without a [cache] option the check always lets the call run. *)
Lemma checkCachedArguments_NoCache addr args m :
  opt_cache m = NoCache -> checkCachedArguments addr args m = Some (true, m).
Proof. unfold checkCachedArguments. now intros ->. Qed.

(** The check reads and writes [cachedArguments] only. *)
Lemma checkCachedArguments_static addr args m b m' :
  checkCachedArguments addr args m = Some (b, m') ->
  isAsync m' = isAsync m /\ opt_latest m' = opt_latest m /\
  opt_cache m' = opt_cache m /\ callCount m' = callCount m.
Proof.
  unfold checkCachedArguments.
  destruct (opt_cache m) eqn:Hc; [intros [= <- <-]; auto | |];
    (destruct (negb (truthy (cachedArguments m))); [intros [= <- <-]; auto |]);
    (destruct (cachedArguments m);
     repeat match goal with
            | |- context [match ?x with _ => _ end] => destruct x
            end; intros [= <- <-]; auto).
Qed.

(** C7, as amended: for an action declared with a cache option, when the
    stored key and the newly computed key are both empty arrays the check
    returns [true] (the invocation runs; it is not suppressed) and leaves
    the stored key as it is. *)
Theorem empty_keys_let_the_call_run addr args m a b :
  opt_cache m <> NoCache ->
  cachedArguments m = VArr a [] ->
  newCachedArguments (opt_cache m) addr args = VArr b [] ->
  checkCachedArguments addr args m = Some (true, m).
Proof.
  intros Hc Hold Hnew. unfold checkCachedArguments.
  destruct (opt_cache m) eqn:E; [congruence | |];
    rewrite Hold; cbn [truthy negb]; rewrite Hnew; reflexivity.
Qed.

Lemma empty_keys_let_the_call_run_witness :
  checkCachedArguments 1 [] load_no_args = Some (true, load_no_args).
Proof.
  apply (empty_keys_let_the_call_run 1 [] load_no_args 0 1);
    [discriminate | reflexivity | reflexivity].
Defined.

(** C7, as stated, fails: the action is declared with [cache: true], the
    stored key and the new key are both the empty array, and the check
    answers [true], not [false]: the call is not suppressed. *)
Lemma empty_keys_are_not_suppressed :
  opt_cache load_no_args = CacheArgs /\
  cachedArguments load_no_args = VArr 0 [] /\
  newCachedArguments (opt_cache load_no_args) 1 [] = VArr 1 [] /\
  fst <$> checkCachedArguments 1 [] load_no_args = Some true /\
  fst <$> checkCachedArguments 1 [] load_no_args <> Some false.
Proof. repeat split; try reflexivity. discriminate. Qed.

(** ** Reading the log *)

Local Arguments dispatched_by : simpl never.
Local Arguments deferred_calls : simpl never.
Local Arguments store_dispatches : simpl never.

Lemma dispatched_by_app c l1 l2 :
  dispatched_by c (l1 ++ l2) = dispatched_by c l1 ++ dispatched_by c l2.
Proof. unfold dispatched_by. apply flat_map_app. Qed.

Lemma dispatched_by_tagged c c' es :
  dispatched_by c (map (pair c') es) = if Nat.eqb c' c then store_dispatches es else [].
Proof.
  unfold dispatched_by, store_dispatches.
  induction es as [|e es IH]; [now destruct (Nat.eqb c' c) |].
  cbn [map flat_map]. rewrite IH.
  destruct e; destruct (Nat.eqb c' c); reflexivity.
Qed.

Lemma store_dispatches_app l1 l2 :
  store_dispatches (l1 ++ l2) = store_dispatches l1 ++ store_dispatches l2.
Proof. unfold store_dispatches. apply flat_map_app. Qed.

Lemma store_dispatches_lifecycle st s p :
  store_dispatches (lifecycle_effects st s p) = [(getTypeWithState (actionType st) s, p)].
Proof.
  unfold lifecycle_effects. rewrite store_dispatches_app.
  unfold store_dispatches.
  induction (lifecycle_subscribers st) as [|fn l IH]; [reflexivity | exact IH].
Qed.

Lemma store_dispatches_deferred o w : store_dispatches (deferred_effects o w) = [].
Proof.
  unfold deferred_effects.
  destruct (a_deferred w) as [d|], o; try reflexivity.
  now destruct (is_subscribed d (heap w)).
Qed.

Lemma store_dispatches_announce st o :
  store_dispatches (announce st AsyncDeclared o) = async_tail st o.
Proof.
  destruct o as [v|e]; cbn [announce async_tail];
    [destruct (truthy v); [| reflexivity] |]; apply store_dispatches_lifecycle.
Qed.

Lemma deferred_calls_app l1 l2 :
  deferred_calls (l1 ++ l2) = deferred_calls l1 ++ deferred_calls l2.
Proof. unfold deferred_calls. apply flat_map_app. Qed.

Lemma deferred_calls_lifecycle c st s p :
  deferred_calls (map (pair c) (lifecycle_effects st s p)) = [].
Proof.
  unfold lifecycle_effects. rewrite map_app, deferred_calls_app.
  unfold deferred_calls.
  induction (lifecycle_subscribers st) as [|fn l IH]; [reflexivity | exact IH].
Qed.

Lemma deferred_calls_announce c st b o :
  deferred_calls (map (pair c) (announce st b o)) = [].
Proof.
  destruct o as [v|e], b; cbn [announce]; try destruct (truthy v);
    try reflexivity; apply deferred_calls_lifecycle.
Qed.

Lemma deferred_calls_deferred c o w :
  deferred_calls (map (pair c) (deferred_effects o w)) = deferred_effects o w.
Proof.
  unfold deferred_effects.
  destruct (a_deferred w) as [d|], o; try reflexivity.
  now destruct (is_subscribed d (heap w)).
Qed.

Lemma dispatched_by_snoc_other c c' l e :
  c' <> c -> dispatched_by c (l ++ [(c', e)]) = dispatched_by c l.
Proof.
  intros Hne. rewrite dispatched_by_app. unfold dispatched_by at 2. cbn.
  destruct e; rewrite ?app_nil_r; try reflexivity.
  destruct (Nat.eqb_spec c' c); [contradiction |]. cbn. now rewrite app_nil_r.
Qed.

Lemma dispatched_by_snoc_quiet c c' l e :
  (forall t p, e <> StoreDispatch t p) ->
  dispatched_by c (l ++ [(c', e)]) = dispatched_by c l.
Proof.
  intros He. rewrite dispatched_by_app. unfold dispatched_by at 2. cbn.
  destruct e as [| t p | | |]; rewrite ?app_nil_r; try reflexivity. now destruct (He t p).
Qed.

Lemma dispatched_by_snoc_subscribers c c' l s subs :
  dispatched_by c (l ++ map (pair c') (map (fun fn => CallSubscriber fn s) subs))
  = dispatched_by c l.
Proof.
  rewrite dispatched_by_app, dispatched_by_tagged.
  replace (store_dispatches (map (fun fn => CallSubscriber fn s) subs)) with
    (@nil (ActionType * Val)).
  - destruct (Nat.eqb c' c); now rewrite app_nil_r.
  - unfold store_dispatches. induction subs as [|fn subs IH]; [reflexivity | exact IH].
Qed.

(** ** Each step in closed form *)

Ltac unfold_world :=
  cbv beta iota zeta delta
    [setActionStateAndDispatch resolve_and_clear reject_and_clear
     set_call add_call emit emit_all set_state set_deferred set_heap set_meta add_wait
     negb fst snd meta a_state a_deferred heap calls effects waits].

(** An invocation of an async-declared action that passes the dedup check
    and whose payload creator returns a promise: the call is counted (when
    the wrapper is installed), a deferred is allocated and referenced,
    START is announced and the invocation is suspended. *)
Lemma invoke_async_promise st addr args w m :
  isAsync (meta w) = true ->
  checkCachedArguments addr args (meta w) = Some (true, m) ->
  invoke st addr args ReturnsPromise w =
  let c := length (calls w) in
  mkWorld (if hasHandleError st then set_callCount (S (callCount m)) m else m)
          (Some START)
          (Some (length (heap w)))
          (heap w ++ [mkDeferred (a_deferred w) false Pending c])
          (calls w ++ [Suspended AsyncDeclared (awaiting_of st m)])
          (effects w ++ map (pair c) (lifecycle_effects st START (startPayload addr args)))
          (waits w).
Proof.
  intros Ha Hchk.
  destruct (checkCachedArguments_static _ _ _ _ _ Hchk) as (Ha' & _).
  rewrite Ha in Ha'.
  unfold invoke. rewrite Hchk. clear Hchk Ha.
  unfold wrapPayloadCreator, awaiting_of, lifecycle_effects.
  destruct w as [m0 s d h cs es ws]. cbn [meta set_meta].
  destruct (hasHandleError st); cbn [negb]; rewrite ?Ha';
    unfold dispatch, create; unfold_world; cbn [isAsync set_callCount];
    rewrite Ha'; list_tidy; reflexivity.
Qed.

(** The promise of the payload creator of a suspended invocation
    settles. *)
Lemma settle_payload_flat st c o w b a :
  calls w !! c = Some (Suspended b a) ->
  (forall o', a <> Ready o') ->
  settle_payload st c o w =
  mkWorld (meta w) (a_state w) (a_deferred w) (heap w)
          (<[c := Suspended b (Ready (wrapped_outcome a o w))]> (calls w))
          (effects w ++ match a, o with
                        | OnWrapper _, Rejects e => [(c, HandleError e (actionType st))]
                        | _, _ => []
                        end)
          (waits w).
Proof.
  intros Hc Ha. destruct w as [m s d h cs es ws].
  unfold settle_payload. cbn [calls] in *. rewrite Hc. clear Hc.
  destruct a as [| n | o']; [| | now destruct (Ha o')].
  - unfold_world. now rewrite app_nil_r.
  - unfold continue_wrapper. cbn [wrapped_outcome meta].
    destruct o as [v|e]; [destruct (_ && _) |]; unfold_world; now rewrite ?app_nil_r.
Qed.

(** The continuation of [dispatch]. *)
Lemma continue_dispatch_flat st c b o w :
  continue_dispatch st c b o w =
  mkWorld (meta w) (state_after b o (a_state w)) None (heap_after o w)
          (<[c := Settled (returned o)]> (calls w))
          (effects w ++ map (pair c) (announce st b o ++ deferred_effects o w))
          (waits w).
Proof.
  destruct w as [m s d h cs es ws].
  unfold continue_dispatch, heap_after, deferred_effects, announce, state_after, returned,
    lifecycle_effects.
  destruct o as [v|e].
  - destruct (or_null_cases v) as [(Hv & Ho & Hn) | (Hv & Ho)].
    + rewrite Hn, Ho, Hv. destruct b, d; unfold_world; list_tidy; reflexivity.
    + rewrite Ho, Hv. destruct b, d; unfold_world; list_tidy; reflexivity.
  - destruct b, d as [d|]; unfold_world; try destruct (is_subscribed d h); unfold_world;
      list_tidy; reflexivity.
Qed.

Lemma resume_flat st c b o w :
  calls w !! c = Some (Suspended b (Ready o)) ->
  resume st c w =
  mkWorld (meta w) (state_after b o (a_state w)) None (heap_after o w)
          (<[c := Settled (returned o)]> (calls w))
          (effects w ++ map (pair c) (announce st b o ++ deferred_effects o w))
          (waits w).
Proof. intros Hc. unfold resume. rewrite Hc. apply continue_dispatch_flat. Qed.

(** A continuation that is not due changes nothing. *)
Lemma resume_idle st c w :
  (forall b o, calls w !! c <> Some (Suspended b (Ready o))) -> resume st c w = w.
Proof.
  intros H. unfold resume.
  destruct (calls w !! c) as [[| | |b [| n |o]|]|]; try reflexivity. now destruct (H b o).
Qed.

Lemma settle_payload_idle st c o w :
  (forall b a, calls w !! c = Some (Suspended b a) -> exists o', a = Ready o') ->
  settle_payload st c o w = w.
Proof.
  intros H. unfold settle_payload.
  destruct (calls w !! c) as [[| | |b [| n |o']|]|]; try reflexivity;
    destruct (H _ _ eq_refl) as [? [=]].
Qed.

Lemma run_cons st w ev evs : run st w (ev :: evs) = run st (step st w ev) evs.
Proof. reflexivity. Qed.

(** ** Steps of other invocations *)

(** An invocation leaves the earlier invocations as they are and
    dispatches nothing in their name. *)
Lemma invoke_frame st c addr args r w :
  c < length (calls w) ->
  let w' := invoke st addr args r w in
  length (calls w') = S (length (calls w)) /\
  calls w' !! c = calls w !! c /\
  dispatched_by c (effects w') = dispatched_by c (effects w).
Proof.
  intros Hc. destruct w as [m s d h cs es ws]. cbn [calls] in Hc.
  unfold invoke, wrapPayloadCreator, dispatch, create. cbn [meta calls set_meta].
  destruct (checkCachedArguments addr args m) as [[[] m']|].
  2-3: unfold_world; rewrite length_snoc; repeat split; now apply lookup_app_l.
  destruct (hasHandleError st); cbn [negb]; [destruct (isAsync m') eqn:Ha |];
    destruct r; unfold_world; cbn [isAsync set_callCount]; rewrite ?Ha;
    try destruct (isAsync m'); unfold_world;
    rewrite length_snoc;
    repeat split; try (now apply lookup_app_l);
    repeat first [ rewrite dispatched_by_snoc_other by lia
                 | rewrite dispatched_by_snoc_subscribers ];
    reflexivity.
Qed.

Lemma settle_payload_frame st c c' o w :
  c' <> c ->
  let w' := settle_payload st c' o w in
  length (calls w') = length (calls w) /\
  calls w' !! c = calls w !! c /\
  dispatched_by c (effects w') = dispatched_by c (effects w).
Proof.
  intros Hne. cbv zeta.
  destruct (calls w !! c') as [[| | |b a|]|] eqn:E;
    try (rewrite settle_payload_idle by (intros ? ?; congruence); auto).
  destruct a as [| n | o'];
    [| | rewrite settle_payload_idle
           by (intros ? ? H; rewrite E in H; injection H as <- <-; eauto); auto];
    (rewrite (settle_payload_flat st c' o w _ _ E) by discriminate;
     cbn [calls effects];
     rewrite length_insert, list_lookup_insert_ne by assumption;
     repeat split; destruct o; rewrite ?app_nil_r; try reflexivity;
     now apply dispatched_by_snoc_other).
Qed.

Lemma resume_frame st c c' w :
  c' <> c ->
  let w' := resume st c' w in
  length (calls w') = length (calls w) /\
  calls w' !! c = calls w !! c /\
  dispatched_by c (effects w') = dispatched_by c (effects w).
Proof.
  intros Hne. cbv zeta.
  destruct (calls w !! c') as [[| | |b [| n |o]|]|] eqn:E;
    try (rewrite resume_idle by (intros ? ?; congruence); auto).
  rewrite (resume_flat st c' b o w E). cbn [calls effects].
  rewrite length_insert, list_lookup_insert_ne by assumption.
  repeat split. rewrite dispatched_by_app, dispatched_by_tagged.
  destruct (Nat.eqb_spec c' c); [contradiction | apply app_nil_r].
Qed.

Lemma step_frame st c w ev :
  c < length (calls w) -> addresses c ev = false ->
  c < length (calls (step st w ev)) /\
  calls (step st w ev) !! c = calls w !! c /\
  dispatched_by c (effects (step st w ev)) = dispatched_by c (effects w).
Proof.
  intros Hc Hev. destruct ev as [addr args r | c' o | c' |]; cbn [step addresses] in *.
  - destruct (invoke_frame st c addr args r w Hc) as (Hl & ? & ?). rewrite Hl. auto.
  - apply Nat.eqb_neq in Hev.
    destruct (settle_payload_frame st c c' o w Hev) as (Hl & ? & ?). rewrite Hl. auto.
  - apply Nat.eqb_neq in Hev.
    destruct (resume_frame st c c' w Hev) as (Hl & ? & ?). rewrite Hl. auto.
  - unfold waitForAction. destruct (a_deferred w); unfold_world; auto.
Qed.

Lemma run_frame st c evs : forall w,
  c < length (calls w) -> Forall (fun ev => addresses c ev = false) evs ->
  c < length (calls (run st w evs)) /\
  calls (run st w evs) !! c = calls w !! c /\
  dispatched_by c (effects (run st w evs)) = dispatched_by c (effects w).
Proof.
  induction evs as [|ev evs IH]; intros w Hc Hevs; [cbn; auto |].
  inversion Hevs as [|? ? Hev Hevs']; subst.
  destruct (step_frame st c w ev Hc Hev) as (Hc1 & Hk1 & Hd1).
  destruct (IH (step st w ev) Hc1 Hevs') as (Hc2 & Hk2 & Hd2).
  rewrite run_cons, Hk2, Hd2. auto.
Qed.

(** ** One invocation *)

(** C6: when the dedup check vetoes a call, the invocation returns an
    already resolved promise of [undefined], whatever the payload creator
    would have done (it is not run: no call is counted, no error is
    handled), nothing is dispatched or otherwise emitted, and the
    lifecycle state, the deferred reference, the deferreds and the
    metadata stay as they were. *)
Theorem vetoed_call_is_inert (st : Store) addr args r w :
  fst <$> checkCachedArguments addr args (meta w) = Some false ->
  let w' := invoke st addr args r w in
  w' = add_call Vetoed w /\
  calls w' !! length (calls w) = Some Vetoed /\
  result_of Vetoed = Some (Resolves VUndefined) /\
  effects w' = effects w /\
  a_state w' = a_state w /\
  a_deferred w' = a_deferred w /\
  heap w' = heap w /\
  meta w' = meta w.
Proof.
  intros Hveto w'.
  assert (Hw' : w' = add_call Vetoed w).
  { subst w'. unfold invoke.
    destruct (checkCachedArguments addr args (meta w)) as [[b m]|] eqn:E;
      [| discriminate].
    cbn in Hveto. injection Hveto as ->.
    apply checkCachedArguments_veto in E. subst m.
    destruct w; reflexivity. }
  rewrite Hw'. cbn [add_call calls effects a_state a_deferred heap meta].
  repeat split. apply lookup_at_0.
Qed.

Lemma vetoed_call_is_inert_witness :
  let w' := invoke profile 1 [VNum 1] ReturnsPromise world_cached in
  w' = add_call Vetoed world_cached /\
  calls w' !! length (calls world_cached) = Some Vetoed /\
  result_of Vetoed = Some (Resolves VUndefined) /\
  effects w' = effects world_cached /\
  a_state w' = a_state world_cached /\
  a_deferred w' = a_deferred world_cached /\
  heap w' = heap world_cached /\
  meta w' = meta world_cached.
Proof.
  apply (vetoed_call_is_inert profile 1 [VNum 1] ReturnsPromise world_cached).
  reflexivity.
Defined.

(** What line 242 computes: [undefined] for at most one argument, the
    argument array otherwise. *)
Lemma startPayload_cases addr args :
  startPayload addr args =
  match args with
  | [] | [_] => VUndefined
  | _ => args_array addr args
  end.
Proof. destruct args as [|x [|y l]]; reflexivity. Qed.

(** C8 at the call [load(1)] of an async action: START is dispatched
    during the invocation, before the payload settles, and its payload is
    [undefined], neither the argument [1] nor the argument list. *)
Theorem start_payload_of_one_argument :
  let w := invoke profile 0 [VNum 1] ReturnsPromise (fresh load_meta) in
  calls w = [Suspended AsyncDeclared (OnWrapper 1)] /\
  dispatched_by 0 (effects w) = [(getTypeWithState (actionType profile) START, VUndefined)].
Proof. split; reflexivity. Qed.

(** An async-declared invocation from start to end, with anything else
    happening in between: what it returns and what it dispatches. *)
Lemma async_call_trace st w addr args evs1 o evs2 :
  isAsync (meta w) = true ->
  fst <$> checkCachedArguments addr args (meta w) = Some true ->
  let c := length (calls w) in
  Forall (fun ev => addresses c ev = false) evs1 ->
  Forall (fun ev => addresses c ev = false) evs2 ->
  let w1 := run st (invoke st addr args ReturnsPromise w) evs1 in
  let w2 := run st (settle_payload st c o w1) evs2 in
  let w3 := resume st c w2 in
  let o' := wrapped_outcome (awaiting_of st (meta w)) o w1 in
  calls w3 !! c = Some (Settled (returned o')) /\
  dispatched_by c (effects w3) =
    dispatched_by c (effects w)
    ++ (getTypeWithState (actionType st) START, startPayload addr args) :: async_tail st o'.
Proof.
  intros Ha Hchk c Hevs1 Hevs2 w1 w2 w3 o'.
  destruct (checkCachedArguments addr args (meta w)) as [[b m]|] eqn:E; [| discriminate].
  cbn in Hchk. injection Hchk as ->.
  destruct (checkCachedArguments_static _ _ _ _ _ E) as (_ & _ & _ & Hcount).
  pose proof (invoke_async_promise st addr args w m Ha E) as Hinv. cbv zeta in Hinv.
  set (w0 := invoke st addr args ReturnsPromise w) in *.
  assert (Haw : awaiting_of st m = awaiting_of st (meta w))
    by (unfold awaiting_of; now rewrite Hcount).
  assert (K0 : calls w0 !! c = Some (Suspended AsyncDeclared (awaiting_of st (meta w))))
    by (rewrite Hinv, Haw; apply lookup_at_0).
  assert (L0 : c < length (calls w0))
    by (rewrite Hinv; cbn [calls]; rewrite length_snoc; subst c; lia).
  assert (D0 : dispatched_by c (effects w0) =
               dispatched_by c (effects w)
               ++ [(getTypeWithState (actionType st) START, startPayload addr args)]).
  { rewrite Hinv. cbn [effects].
    now rewrite dispatched_by_app, dispatched_by_tagged, Nat.eqb_refl,
      store_dispatches_lifecycle. }
  destruct (run_frame st c evs1 w0 L0 Hevs1) as (L1 & K1 & D1). fold w1 in L1, K1, D1.
  rewrite K0 in K1.
  assert (Hnr : forall o1, awaiting_of st (meta w) <> Ready o1)
    by (intros o1; unfold awaiting_of; destruct (hasHandleError st); discriminate).
  pose proof (settle_payload_flat st c o w1 _ _ K1 Hnr) as Hs. fold o' in Hs.
  set (ws := settle_payload st c o w1) in *.
  assert (Ks : calls ws !! c = Some (Suspended AsyncDeclared (Ready o')))
    by (rewrite Hs; cbn [calls]; now apply list_lookup_insert_eq).
  assert (Ls : c < length (calls ws))
    by (rewrite Hs; cbn [calls]; now rewrite length_insert).
  assert (Ds : dispatched_by c (effects ws) = dispatched_by c (effects w1)).
  { rewrite Hs. cbn [effects].
    destruct (awaiting_of st (meta w)), o; rewrite ?app_nil_r; try reflexivity.
    now apply dispatched_by_snoc_quiet. }
  destruct (run_frame st c evs2 ws Ls Hevs2) as (L2 & K2 & D2). fold w2 in L2, K2, D2.
  rewrite Ks in K2.
  subst w3. rewrite (resume_flat st c _ _ w2 K2). cbn [calls effects].
  split; [now apply list_lookup_insert_eq |].
  rewrite dispatched_by_app, dispatched_by_tagged, Nat.eqb_refl, store_dispatches_app,
    store_dispatches_announce, store_dispatches_deferred, app_nil_r.
  rewrite D2, Ds, D1, D0, <- app_assoc. reflexivity.
Qed.

(** C1, as amended: for an async-declared action whose payload creator
    returned a promise, the lifecycle suffixes of the types one invocation
    dispatches are exactly [START, SUCCESS] when the promise resolves with
    a truthy value that the latest policy does not drop, exactly [START]
    when it resolves with a falsy value or the result is dropped as stale,
    and exactly [START, ERROR] when it rejects; START always comes first.
    This holds with any steps of other invocations and any waits in
    between. *)
Theorem async_lifecycle_sequence st w addr args evs1 o evs2 :
  isAsync (meta w) = true ->
  fst <$> checkCachedArguments addr args (meta w) = Some true ->
  let c := length (calls w) in
  Forall (fun ev => addresses c ev = false) evs1 ->
  Forall (fun ev => addresses c ev = false) evs2 ->
  let w1 := run st (invoke st addr args ReturnsPromise w) evs1 in
  let w2 := run st (settle_payload st c o w1) evs2 in
  let w3 := resume st c w2 in
  let stale := hasHandleError st && opt_latest (meta w1)
               && negb (S (callCount (meta w)) =? callCount (meta w1))%nat in
  lifecycle_by c (effects w3) =
    lifecycle_by c (effects w) ++
    match o with
    | Resolves v => if truthy v && negb stale then [Some START; Some SUCCESS] else [Some START]
    | Rejects _ => [Some START; Some ERROR]
    end.
Proof.
  intros Ha Hchk c Hevs1 Hevs2 w1 w2 w3 stale.
  destruct (async_call_trace st w addr args evs1 o evs2 Ha Hchk Hevs1 Hevs2) as (_ & D).
  fold c w1 w2 w3 in D. unfold lifecycle_by. rewrite D, map_app. f_equal.
  subst stale. unfold awaiting_of, wrapped_outcome.
  destruct o as [v|e]; [| destruct (hasHandleError st); reflexivity].
  destruct (hasHandleError st); cbn [andb negb].
  - destruct (opt_latest (meta w1) && negb (S (callCount (meta w)) =? callCount (meta w1))%nat);
      cbn; [now rewrite andb_false_r | rewrite andb_true_r; now destruct (truthy v)].
  - rewrite andb_true_r. cbn. now destruct (truthy v).
Qed.

Lemma async_lifecycle_sequence_witness :
  let w1 := run profile (invoke profile 0 [VNum 1] ReturnsPromise (fresh load_meta))
                [WaitForAction] in
  let w3 := resume profile 0 (settle_payload profile 0 (Resolves user) w1) in
  lifecycle_by 0 (effects w3) = [Some START; Some SUCCESS].
Proof.
  pose proof (async_lifecycle_sequence profile (fresh load_meta) 0 [VNum 1]
                [WaitForAction] (Resolves user) [] eq_refl eq_refl
                ltac:(repeat constructor) ltac:(constructor)) as H.
  vm_compute in H. vm_compute. exact H.
Defined.

(** C1, as stated, fails: [load(1)] on the async action, whose promise
    resolves with [undefined]; the invocation dispatches START and nothing
    else, and resolves to [null]. *)
Lemma resolved_without_value_dispatches_no_success :
  let w := run profile (fresh load_meta)
             [Invoke 0 [VNum 1] ReturnsPromise; SettlePayload 0 (Resolves VUndefined); Resume 0] in
  calls w = [Settled (Resolves VNull)] /\
  lifecycle_by 0 (effects w) = [Some START] /\
  lifecycle_by 0 (effects w) <> [Some START; Some SUCCESS].
Proof. repeat split; try reflexivity. discriminate. Qed.

(** ** Overlapping invocations *)

Ltac proj_norm :=
  cbn [meta a_state a_deferred heap calls effects waits
       isAsync opt_cache opt_latest callCount cachedArguments set_callCount
       wrapped_outcome heap_after deferred_effects state_after returned
       negb andb].

Ltac do_settle :=
  rewrite run_cons; cbn [step];
  erewrite settle_payload_flat;
  [ | cbn [calls]; list_norm; reflexivity | discriminate ];
  proj_norm; list_norm.

Ltac do_resume :=
  rewrite run_cons; cbn [step];
  erewrite resume_flat;
  [ | cbn [calls]; list_norm; reflexivity ];
  proj_norm; list_norm.












(** ** Waiting for an action *)

Lemma settlement_of_markSubscribed d d' h :
  settlement_of d' (markSubscribed d h) = settlement_of d' h.
Proof.
  unfold settlement_of, markSubscribed.
  destruct (decide (d = d')) as [->|Hne].
  - rewrite list_lookup_alter_eq. now destruct (h !! d').
  - now rewrite list_lookup_alter_ne.
Qed.

Lemma is_subscribed_markSubscribed d h :
  is_Some (h !! d) -> is_subscribed d (markSubscribed d h) = true.
Proof.
  intros [x Hx]. unfold is_subscribed, markSubscribed.
  now rewrite list_lookup_alter_eq, Hx.
Qed.

Lemma wrapped_outcome_rejects a e w : wrapped_outcome a (Rejects e) w = Rejects e.
Proof. now destruct a. Qed.

Lemma settlement_of_reject d e h :
  settlement_of d h = Some Pending -> settlement_of d (reject d e h) = Some (Rejected e).
Proof.
  unfold settlement_of, reject. rewrite list_lookup_alter_eq.
  destruct (h !! d) as [x|]; [| discriminate]. cbn. intros [= Hx].
  unfold settle. now rewrite Hx.
Qed.

(** C4, as amended.  (1) Waiting on an action whose deferred reference is
    null returns at once.  (2) When an in-flight invocation fails while
    the action still references the deferred the waiter subscribed to,
    the wait rejects with the very error thrown to the direct caller.
    (3) A failing invocation rejects the deferred the action references
    at that moment, and only if that deferred has been subscribed to:
    when it has not (or the reference is null), no call is made on any
    deferred, no wait changes its outcome, and the error reaches the
    direct caller only. *)
Theorem waiting_for_an_action st :
  (forall w,
     a_deferred w = None ->
     waitForAction w = add_wait Immediate w /\
     wait_result (waitForAction w) (length (waits w)) = Some (Resolves VUndefined))
  /\
  (forall w c b a d e,
     calls w !! c = Some (Suspended b a) ->
     (forall o, a <> Ready o) ->
     a_deferred w = Some d ->
     settlement_of d (heap w) = Some Pending ->
     let w' := run st w [WaitForAction; SettlePayload c (Rejects e); Resume c] in
     wait_result w' (length (waits w)) = Some (Rejects e) /\
     (result_of <$> calls w' !! c) = Some (Some (Rejects e)))
  /\
  (forall w c b e,
     calls w !! c = Some (Suspended b (Ready (Rejects e))) ->
     match a_deferred w with
     | Some d => is_subscribed d (heap w) = false
     | None => True
     end ->
     let w' := resume st c w in
     (result_of <$> calls w' !! c) = Some (Some (Rejects e)) /\
     heap w' = heap w /\
     deferred_calls (effects_since w w') = [] /\
     forall k, wait_result w' k = wait_result w k).
Proof.
  split; [| split].
  - intros w Hd. unfold waitForAction. rewrite Hd. split; [reflexivity |].
    unfold wait_result. cbn [add_wait waits]. now rewrite lookup_at_0.
  - intros w c b a d e Hc Ha Hd Hp w'.
    pose proof (lookup_lt_Some _ _ _ Hc) as Hlt.
    assert (Hsome : is_Some (heap w !! d)).
    { unfold settlement_of in Hp. destruct (heap w !! d); [eauto | discriminate]. }
    subst w'. rewrite run_cons. cbn [step]. unfold waitForAction. rewrite Hd.
    destruct w as [m s d0 h cs es ws]. cbn [a_deferred heap calls waits] in *. subst d0.
    unfold_world.
    rewrite run_cons. cbn [step].
    erewrite settle_payload_flat; [| cbn [calls]; exact Hc | exact Ha].
    rewrite wrapped_outcome_rejects. proj_norm.
    rewrite run_cons. cbn [step].
    erewrite resume_flat; [| cbn [calls]; now apply list_lookup_insert_eq].
    proj_norm. rewrite (is_subscribed_markSubscribed d h Hsome).
    cbn [run fold_left]. unfold wait_result. cbn [waits heap calls].
    rewrite lookup_at_0, settlement_of_reject
      by (now rewrite settlement_of_markSubscribed).
    rewrite list_lookup_insert_eq by (now rewrite length_insert).
    split; reflexivity.
  - intros w c b e Hc Hsub w'.
    subst w'. rewrite (resume_flat st c b (Rejects e) w Hc).
    pose proof (lookup_lt_Some _ _ _ Hc) as Hlt.
    unfold effects_since, wait_result, heap_after, deferred_effects.
    cbn [calls heap effects waits].
    rewrite list_lookup_insert_eq by assumption. rewrite drop_at.
    destruct (a_deferred w) as [d|]; [rewrite Hsub |];
      rewrite app_nil_r, deferred_calls_announce; repeat split.
Qed.

Lemma waiting_for_an_action_witness :
  wait_result (waitForAction (fresh load_meta)) 0 = Some (Resolves VUndefined)
  /\
  (let w' := run profile world_in_flight
               [WaitForAction; SettlePayload 0 (Rejects boom); Resume 0] in
   wait_result w' 0 = Some (Rejects boom) /\
   (result_of <$> calls w' !! 0) = Some (Some (Rejects boom)))
  /\
  (let w' := resume profile 0 world_failed in
   (result_of <$> calls w' !! 0) = Some (Some (Rejects boom)) /\
   heap w' = heap world_failed /\
   deferred_calls (effects_since world_failed w') = []).
Proof.
  destruct (waiting_for_an_action profile) as (H1 & H2 & H3).
  split; [| split].
  - exact (proj2 (H1 (fresh load_meta) eq_refl)).
  - exact (H2 world_in_flight 0 AsyncDeclared (OnWrapper 1) 0 boom
              eq_refl ltac:(discriminate) eq_refl eq_refl).
  - destruct (H3 world_failed 0 AsyncDeclared boom eq_refl eq_refl) as (Ha & Hb & Hc & _).
    repeat split; assumption.
Defined.

(** C4, as stated, fails in its last part: two invocations are in flight,
    somebody waits for the action, and the first invocation fails.  Nobody
    ever subscribed to the deferred the first invocation created, yet its
    error is what the waiter gets, while the second invocation is still
    running. *)
Lemma unsubscribed_failure_reaches_the_waiter :
  let w' := run profile (two_in_flight load_meta)
              [WaitForAction; SettlePayload 0 (Rejects boom); Resume 0] in
  creator <$> heap w' !! 0 = Some 0 /\
  subscribedTo <$> heap w' !! 0 = Some false /\
  calls w' = [Settled (Rejects boom); Suspended AsyncDeclared (OnWrapper 2)] /\
  waits w' = [OnDeferred 1] /\
  wait_result w' 0 = Some (Rejects boom).
Proof. repeat split; reflexivity. Qed.

(** ** Clearing the deferred reference *)








(** ** The reducer of a store *)

(** C10: called with a [null] or [undefined] state, the reducer the store
    builds for itself returns the [initialState] of the store, whatever
    the action: its type may be reserved, have a handler or have none,
    and carry any payload.  The same holds of the whole [reducer] of a
    store that holds no other reducer. *)
Theorem initialReducer_of_missing_state
    (isReduxInternalAction : ActionType -> bool) (d : StoreDef) (action : Action) :
  initialReducer isReduxInternalAction d VNull action = initialState d /\
  initialReducer isReduxInternalAction d VUndefined action = initialState d /\
  (forall state, is_nullish state = true ->
     initialReducer isReduxInternalAction d state action = initialState d /\
     reducer [initialReducer isReduxInternalAction d] state action = initialState d).
Proof.
  repeat split; unfold reducer, initialReducer; cbn [fold_left]; now rewrite H.
Qed.

Lemma initialReducer_of_missing_state_witness :
  initialReducer (fun _ => true)
    (mkStoreDef (VNum 5) (fun _ => Some (fun s p t => p)) (fun s => s))
    VUndefined (mkAction (scoped "increment" "counter") (VNum 3)) = VNum 5.
Proof.
  exact (proj1 (proj2 (proj2 (initialReducer_of_missing_state (fun _ => true)
           (mkStoreDef (VNum 5) (fun _ => Some (fun s p t => p)) (fun s => s))
           (mkAction (scoped "increment" "counter") (VNum 3)))) VUndefined eq_refl)).
Defined.

(** ** Nested stores and the subscription notifier *)

Module NestedFacts.

Import Nested.

Lemma notifySubscribers_unfold path s state prevState :
  notifySubscribers path s state prevState =
  map (fun sub => mkNotification path sub state prevState) (subscriptions s)
  ++ forEach_from path state prevState 0 (innerStores s).
Proof.
  destruct s as [subs f g inner].
  cbn [notifySubscribers subscriptions innerStores]. f_equal.
  generalize 0. induction inner as [|c rest IH]; intros i; [reflexivity |].
  cbn [forEach_from]. unfold notify_child. f_equal. apply IH.
Qed.

(** Every call made while notifying the store at [path] is made for a
    store at or below [path], with the state and previous state that
    store reads. *)
Lemma notified_below s : forall path state prevState n,
  In n (notifySubscribers path s state prevState) ->
  exists k s',
    at_store n = path ++ k /\
    store_at s k = Some s' /\
    In (subscriber n) (subscriptions s') /\
    state_at s k state = Some (state_arg n) /\
    state_at s k prevState = Some (prev_arg n).
Proof.
  induction s as [subs f g inner IH] using Store_nested_ind.
  intros path state prevState n. rewrite notifySubscribers_unfold. cbn [subscriptions innerStores].
  rewrite in_app_iff. intros [Hown | Hkid].
  - apply in_map_iff in Hown as (sub & <- & Hsub).
    exists [], (mkStore subs f g inner). cbn. rewrite app_nil_r. auto.
  - assert (Hgen : forall i stores,
               Forall (fun s0 => forall path state prevState n,
                         In n (notifySubscribers path s0 state prevState) ->
                         exists k s',
                           at_store n = path ++ k /\ store_at s0 k = Some s' /\
                           In (subscriber n) (subscriptions s') /\
                           state_at s0 k state = Some (state_arg n) /\
                           state_at s0 k prevState = Some (prev_arg n)) stores ->
               In n (forEach_from path state prevState i stores) ->
               exists j c fc k s',
                 stores !! j = Some c /\ selectLocalState c = Some fc /\
                 at_store n = path ++ (i + j) :: k /\
                 store_at c k = Some s' /\
                 In (subscriber n) (subscriptions s') /\
                 state_at c k (project fc state) = Some (state_arg n) /\
                 state_at c k (project fc prevState) = Some (prev_arg n)).
    { intros i stores. revert i.
      induction stores as [|c rest IHrest]; intros i Hall Hin; [destruct Hin |].
      inversion Hall as [|? ? Hc Hrest]; subst.
      cbn [forEach_from] in Hin. apply in_app_iff in Hin as [Hin | Hin].
      - unfold notify_child in Hin. destruct (selectLocalState c) as [fc|] eqn:Hf; [| destruct Hin].
        destruct (Hc _ _ _ _ Hin) as (k & s' & Hat & Hst & Hsub & Hs1 & Hs2).
        exists 0, c, fc, k, s'. rewrite Nat.add_0_r, Hat, <- app_assoc. cbn. auto 10.
      - destruct (IHrest (S i) Hrest Hin) as (j & c' & fc & k & s' & Hj & Hf & Hat & Hrest').
        exists (S j), c', fc, k, s'. rewrite Hat.
        replace (i + S j) with (S i + j) by lia. cbn. auto 10. }
    destruct (Hgen 0 inner IH Hkid)
      as (j & c & fc & k & s' & Hj & Hf & Hat & Hst & Hsub & Hs1 & Hs2).
    exists (j :: k), s'. cbn [store_at state_at innerStores]. rewrite Hj, Hf. cbn in Hat. auto 10.
Qed.


Lemma forEach_below path state prevState n : forall stores i,
  In n (forEach_from path state prevState i stores) ->
  exists j k, at_store n = path ++ (i + j) :: k.
Proof.
  induction stores as [|c rest IH]; intros i Hin; [destruct Hin |].
  cbn [forEach_from] in Hin. apply in_app_iff in Hin as [Hin | Hin].
  - unfold notify_child in Hin. destruct (selectLocalState c); [| destruct Hin].
    destruct (notified_below _ _ _ _ _ Hin) as (k & _ & Hat & _).
    exists 0, k. rewrite Nat.add_0_r, Hat, <- app_assoc. reflexivity.
  - destruct (IH _ Hin) as (j & k & Hat). exists (S j), k.
    rewrite Hat. now replace (i + S j) with (S i + j) by lia.
Qed.

Lemma forEach_member path state prevState n c : forall stores i j,
  stores !! j = Some c ->
  In n (notify_child path state prevState (i + j) c) ->
  In n (forEach_from path state prevState i stores).
Proof.
  induction stores as [|c0 rest IH]; intros i j Hj Hin; [discriminate |].
  cbn [forEach_from]. apply in_app_iff. destruct j as [|j].
  - injection Hj as ->. left. now rewrite Nat.add_0_r in Hin.
  - right. apply (IH (S i) j Hj). now replace (S i + j) with (i + S j) by lia.
Qed.

(** Every subscriber of every store reached through read projections is
    called, with the states that store reads. *)
Lemma all_notified : forall k s path state prevState s' x y sub,
  store_at s k = Some s' ->
  state_at s k state = Some x ->
  state_at s k prevState = Some y ->
  In sub (subscriptions s') ->
  In (mkNotification (path ++ k) sub x y) (notifySubscribers path s state prevState).
Proof.
  induction k as [|i k IH]; intros s path state prevState s' x y sub Hs Hx Hy Hsub;
    rewrite notifySubscribers_unfold; apply in_app_iff.
  - cbn in Hs, Hx, Hy. injection Hs as <-. injection Hx as <-. injection Hy as <-.
    left. rewrite app_nil_r. apply in_map_iff. eauto.
  - right. cbn [store_at state_at] in Hs, Hx, Hy.
    destruct (innerStores s !! i) as [c|] eqn:Hi; [| discriminate].
    destruct (selectLocalState c) as [f|] eqn:Hf; [| discriminate].
    apply (forEach_member _ _ _ _ c _ 0 i Hi). unfold notify_child. rewrite Hf.
    replace (path ++ i :: k) with ((path ++ [i]) ++ k) by now rewrite <- app_assoc.
    now apply (IH c _ _ _ s').
Qed.

(** *** Order of the calls *)

Section AllBefore.

Context {A : Type} (P Q : A -> Prop).

Lemma all_before_without_P l : Forall (fun y => ~ P y) l -> all_before P Q l.
Proof.
  intros H l1 x l2 -> _. apply Forall_app in H as (_ & H). now inversion H.
Qed.

Lemma all_before_without_Q l : Forall (fun y => ~ Q y) l -> all_before P Q l.
Proof.
  intros H l1 x l2 -> Hq. apply Forall_app in H as (_ & H). inversion H; subst. contradiction.
Qed.

Lemma all_before_app l1 l2 :
  all_before P Q l1 -> all_before P Q l2 ->
  (Exists Q l1 -> Forall (fun y => ~ P y) l2) ->
  all_before P Q (l1 ++ l2).
Proof.
  intros H1 H2 Hx a x b Heq Hq.
  apply app_eq_app in Heq as [m [(Hl1 & Hb) | (Ha & Hl2)]].
  - destruct m as [|x' m].
    + cbn in Hb. now apply (H2 [] x b).
    + cbn in Hb. injection Hb as -> ->. apply Forall_app. split.
      * now apply (H1 a x' m).
      * apply Hx. rewrite Hl1. apply Exists_app. right. now constructor.
  - now apply (H2 m x b).
Qed.

End AllBefore.

Lemma ancestors_first s : forall path state prevState p q,
  q <> [] ->
  all_before (fun n => at_store n = p) (fun n => at_store n = p ++ q)
             (notifySubscribers path s state prevState).
Proof.
  induction s as [subs f g inner IH] using Store_nested_ind.
  intros path state prevState p q Hq. rewrite notifySubscribers_unfold.
  cbn [subscriptions innerStores]. apply all_before_app.
  - destruct (decide (path = p)) as [->|Hne].
    + apply all_before_without_Q. apply List.Forall_forall. intros n Hn.
      apply in_map_iff in Hn as (sub & <- & _). cbn. intros Heq.
      apply Hq. apply (app_inv_head p). now rewrite app_nil_r.
    + apply all_before_without_P. apply List.Forall_forall. intros n Hn.
      apply in_map_iff in Hn as (sub & <- & _). cbn. congruence.
  - generalize 0 as i. induction inner as [|c rest IHrest]; intros i.
    + intros l1 x l2 Heq. now destruct l1.
    + inversion IH as [|? ? Hc Hrest]; subst. cbn [forEach_from]. apply all_before_app.
      * unfold notify_child. destruct (selectLocalState c); [now apply Hc |].
        intros l1 x l2 Heq. now destruct l1.
      * now apply IHrest.
      * intros Hex. apply List.Forall_forall. intros y Hy Hp.
        apply List.Exists_exists in Hex as (x & Hx & Hqx).
        unfold notify_child in Hx. destruct (selectLocalState c); [| destruct Hx].
        destruct (notified_below _ _ _ _ _ Hx) as (k & _ & Hat & _).
        destruct (forEach_below _ _ _ _ _ _ Hy) as (j & k' & Hat').
        rewrite Hqx, <- Hp, Hat', <- !app_assoc in Hat. cbn in Hat.
        apply app_inv_head in Hat. injection Hat as Hij _. lia.
  - intros Hex. apply List.Forall_forall. intros y Hy Hp.
    apply List.Exists_exists in Hex as (x & Hx & Hqx).
    apply in_map_iff in Hx as (sub & <- & _). cbn in Hqx.
    destruct (forEach_below _ _ _ _ _ _ Hy) as (j & k' & Hat').
    rewrite Hp, Hqx, <- app_assoc in Hat'.
    apply (f_equal length) in Hat'. rewrite !length_app in Hat'. cbn in Hat'. lia.
Qed.


(** *** Depth-first order *)

Lemma path_le_below path k : path_le path (path ++ k) = true.
Proof.
  induction path as [|i path IH]; [reflexivity |].
  cbn [path_le app]. now rewrite Nat.ltb_irrefl, Nat.eqb_refl.
Qed.

Lemma path_le_siblings path i j k k' :
  i < j -> path_le (path ++ i :: k) (path ++ j :: k') = true.
Proof.
  intros Hij. induction path as [|x path IH]; cbn [path_le app].
  - apply Nat.ltb_lt in Hij. now rewrite Hij.
  - now rewrite Nat.ltb_irrefl, Nat.eqb_refl.
Qed.

Lemma StronglySorted_app {A} (R : A -> A -> Prop) l1 l2 :
  StronglySorted R l1 -> StronglySorted R l2 ->
  (forall x y, In x l1 -> In y l2 -> R x y) ->
  StronglySorted R (l1 ++ l2).
Proof.
  intros H1 H2 H. induction H1 as [|x l1 Hs IH Hx]; [exact H2 |].
  cbn. constructor.
  - apply IH. intros a b Ha Hb. apply H; [now right | assumption].
  - apply Forall_app. split; [assumption |].
    apply List.Forall_forall. intros y Hy. apply H; [now left | assumption].
Qed.

Lemma depth_first s : forall path state prevState,
  StronglySorted in_order (notifySubscribers path s state prevState).
Proof.
  induction s as [subs f g inner IH] using Store_nested_ind.
  intros path state prevState. rewrite notifySubscribers_unfold.
  cbn [subscriptions innerStores]. apply StronglySorted_app.
  - induction subs as [|sub subs IHs]; cbn; constructor; [assumption |].
    apply List.Forall_forall. intros y Hy. apply in_map_iff in Hy as (z & <- & _).
    unfold in_order. cbn. rewrite <- (app_nil_r path) at 2. apply path_le_below.
  - generalize 0 as i. induction inner as [|c rest IHrest]; intros i; [constructor |].
    inversion IH as [|? ? Hc Hrest]; subst. cbn [forEach_from]. apply StronglySorted_app.
    + unfold notify_child. destruct (selectLocalState c); [apply Hc | constructor].
    + now apply IHrest.
    + intros x y Hx Hy. unfold notify_child in Hx.
      destruct (selectLocalState c); [| destruct Hx].
      destruct (notified_below _ _ _ _ _ Hx) as (k & _ & Hat & _).
      destruct (forEach_below _ _ _ _ _ _ Hy) as (j & k' & Hat').
      unfold in_order. rewrite Hat, Hat', <- app_assoc. cbn.
      apply path_le_siblings. lia.
  - intros x y Hx Hy. apply in_map_iff in Hx as (sub & <- & _).
    destruct (forEach_below _ _ _ _ _ _ Hy) as (j & k' & Hat').
    unfold in_order. cbn. rewrite Hat'. apply path_le_below.
Qed.

(** C9, as amended: a state change of a root store made through
    [setState] while subscriptions are enabled calls every subscriber of
    the root with the new and the previous state, before any subscriber
    of a store below it, and so on recursively: for every store, its
    subscribers are called before those of any store below it, and the
    calls for the stores below an earlier child come before those for a
    later child (depth-first).  Every
    store reached through read projections has all its subscribers
    called, with its own state and previous state, each obtained by
    applying the read projections on the way down for as long as the
    value at hand is truthy, and [undefined] from the first falsy value
    on (as on the first transition).  With subscriptions disabled nobody
    is called. *)
Theorem root_subscribers_are_called_first (r : Root) (newState : Val) :
  let prevState := state r in
  let r' := fst (setState r newState) in
  let log := snd (setState r newState) in
  state r' = newState /\
  (subscriptionsEnabled r = false -> log = []) /\
  (subscriptionsEnabled r = true ->
   (exists below,
      log = map (fun sub => mkNotification [] sub newState prevState)
                (subscriptions (store r)) ++ below /\
      Forall (fun n => at_store n <> []) below) /\
   StronglySorted in_order log /\
   (forall p q, q <> [] ->
      all_before (fun n => at_store n = p) (fun n => at_store n = p ++ q) log) /\
   (forall n, In n log ->
      exists s',
        store_at (store r) (at_store n) = Some s' /\
        In (subscriber n) (subscriptions s') /\
        state_at (store r) (at_store n) newState = Some (state_arg n) /\
        state_at (store r) (at_store n) prevState = Some (prev_arg n)) /\
   (forall p s' x y sub,
      store_at (store r) p = Some s' ->
      state_at (store r) p newState = Some x ->
      state_at (store r) p prevState = Some y ->
      In sub (subscriptions s') ->
      In (mkNotification p sub x y) log)).
Proof.
  intros prevState r' log. subst r' log. unfold setState.
  cbn [fst snd state subscriptionsEnabled store].
  split; [reflexivity |]. split; [now intros -> |].
  intros ->. repeat split.
  - rewrite notifySubscribers_unfold. eexists. split; [reflexivity |].
    apply List.Forall_forall. intros n Hn.
    destruct (forEach_below _ _ _ _ _ _ Hn) as (j & k & ->). discriminate.
  - apply depth_first.
  - intros p q Hq. now apply ancestors_first.
  - intros n Hn. destruct (notified_below _ _ _ _ _ Hn) as (k & s' & Hat & H).
    cbn in Hat. subst k. eauto.
  - intros p s' x y sub Hs Hx Hy Hsub.
    apply (all_notified p (store r) [] newState prevState s' x y sub); assumption.
Qed.

Lemma root_subscribers_are_called_first_witness :
  snd (setState (counter 5 true) (VNum 8))
  = [mkNotification [] 1 (VNum 8) (VNum 5); mkNotification [0] 2 (VNum 8) (VNum 5)]
  /\ In (mkNotification [0] 2 (VNum 8) (VNum 5)) (snd (setState (counter 5 true) (VNum 8)))
  /\ snd (setState (counter 5 false) (VNum 8)) = [].
Proof.
  destruct (root_subscribers_are_called_first (counter 5 true) (VNum 8)) as (_ & _ & Hon).
  destruct (Hon eq_refl) as (_ & _ & _ & _ & Hall).
  destruct (root_subscribers_are_called_first (counter 5 false) (VNum 8)) as (_ & Hoff & _).
  split; [reflexivity |]. split.
  - exact (Hall [0] leaf (VNum 8) (VNum 5) 2 eq_refl eq_refl eq_refl (or_introl eq_refl)).
  - exact (Hoff eq_refl).
Defined.

(** C9, as stated, fails twice.  With subscriptions disabled the state of
    the root changes and its subscriber is not called.  And when the
    previous state of the root is [0], the subscriber of the child
    attached with the identity read projection receives [undefined] as
    previous state, not the projection [0] of the previous root state. *)
Lemma falsy_previous_state_is_not_projected :
  (state (fst (setState (counter 5 false) (VNum 8))) = VNum 8 /\
   subscriptions (store (counter 5 false)) = [1] /\
   snd (setState (counter 5 false) (VNum 8)) = [])
  /\
  (selectLocalState leaf = Some (fun x => x) /\
   snd (setState (counter 0 true) (VNum 5))
   = [mkNotification [] 1 (VNum 5) (VNum 0); mkNotification [0] 2 (VNum 5) VUndefined] /\
   VUndefined <> (fun x : Val => x) (VNum 0)).
Proof. repeat split; try reflexivity. discriminate. Qed.

(** C3, as amended: once a child is attached with read projection R and
    write projection W, assigning [v] to the state of the child assigns
    W(v) to the state property of the parent, which for a root parent
    replaces the state field (nothing of the previous state is kept) and
    in no case calls a subscriber; reading the state of the child then
    yields R of the state of the parent when that state is truthy and
    [undefined] otherwise, so that with the identity projections the read
    gives back [v] whenever [v] is truthy. *)
Theorem child_state_writes_through (selectLocal selectGlobal : Val -> Val) (r : Root) (v : Val) :
  let child := attached own_state selectLocal selectGlobal in
  (forall parent : StateProp,
     assign_state (attached parent selectLocal selectGlobal) v r
     = assign_state parent (selectGlobal v) r) /\
  state (fst (assign_state child v r)) = selectGlobal v /\
  snd (assign_state child v r) = [] /\
  get child (state (fst (assign_state child v r))) = project selectLocal (selectGlobal v) /\
  (truthy v = true ->
   get (attached_by_default own_state)
       (state (fst (assign_state (attached_by_default own_state) v r))) = v).
Proof.
  cbn. repeat split. unfold project. now intros ->.
Qed.

Lemma child_state_writes_through_witness :
  get (attached_by_default own_state)
      (state (fst (assign_state (attached_by_default own_state) b3 (mkRoot ab true tree)))) = b3.
Proof.
  exact (proj2 (proj2 (proj2 (proj2
           (child_state_writes_through (fun x => x) (fun x => x) (mkRoot ab true tree) b3))))
           eq_refl).
Defined.

(** C3, as stated, fails twice.  The parent holds [{a: 1, b: 2}] and the
    child, attached with the identity projections, is assigned [{b: 3}]:
    the parent then holds [{b: 3}], not the merge [{a: 1, b: 3}] that
    [Object.assign] (as in [setPartialState]) would give.  And with the
    same projections, assigning [0] and reading back yields [undefined],
    not [0]. *)
Lemma child_write_replaces_the_parent_state :
  (let r' := fst (assign_state (attached_by_default own_state) b3 (mkRoot ab true tree)) in
   state r' = b3 /\
   lookup_field "a" (fields_of (state r')) = VUndefined /\
   fields_of (state (fst (setPartialState 3 (mkRoot ab true tree) b3)))
   = [("a", VNum 1); ("b", VNum 3)] /\
   fields_of (state r') <> fields_of (object_assign 3 ab b3))
  /\
  (let r' := fst (assign_state (attached_by_default own_state) (VNum 0) (mkRoot ab true tree)) in
   get (attached_by_default own_state) (state r') = VUndefined /\
   get (attached_by_default own_state) (state r') <> VNum 0).
Proof. repeat split; try reflexivity; discriminate. Qed.

End NestedFacts.

(** * Further properties of the store *)

(** ** More on the dedup check *)

Lemma strict_eq_truthy a b : strict_eq a b = true -> truthy a = truthy b.
Proof.
  destruct a, b; cbn; try discriminate; try reflexivity.
  - intros H. apply Bool.eqb_prop in H. now subst.
  - intros H. apply Z.eqb_eq in H. now subst.
  - intros H. apply String.eqb_eq in H. now subst.
Qed.

Lemma all_identical_length xs : forall ys,
  all_identical xs ys = true -> length xs = length ys.
Proof.
  induction xs as [|x xs IH]; intros [|y ys]; cbn; try discriminate; [reflexivity |].
  intros H. apply andb_true_iff in H as [_ H]. f_equal. now apply IH.
Qed.

(** The loop of lines 127-132 finds a difference exactly when the two
    arrays, of the same length, are not identical element by element. *)
Lemma differs_from_all_identical a old : forall pre new,
  length new = length old ->
  differs_from (length pre) old (VArr a (pre ++ new)) = negb (all_identical new old).
Proof.
  induction old as [|c cs IH]; intros pre [|x xs] Hlen; try discriminate; [reflexivity |].
  cbn [differs_from index all_identical].
  rewrite (nth_middle pre xs x VUndefined).
  destruct (strict_eq x c); [| reflexivity]. cbn [andb].
  specialize (IH (pre ++ [x]) xs ltac:(cbn in Hlen; lia)).
  rewrite length_app, <- app_assoc in IH. cbn in IH.
  now rewrite Nat.add_1_r in IH.
Qed.

Lemma strict_eq_lengths n k :
  strict_eq (VNum (Z.of_nat n)) (VNum (Z.of_nat k)) = (n =? k)%nat.
Proof.
  cbn. destruct (Nat.eqb_spec n k) as [-> | Hne]; [apply Z.eqb_refl |].
  apply Z.eqb_neq. lia.
Qed.

Lemma verdict_with_stored_array addr args m a old a' new :
  opt_cache m <> NoCache ->
  cachedArguments m = VArr a old ->
  newCachedArguments (opt_cache m) addr args = VArr a' new ->
  checkCachedArguments addr args m =
  Some (if all_identical new old
        then match old with
             | [] => (true, m)
             | _ :: _ => (false, m)
             end
        else (true, set_cachedArguments (VArr a' new) m)).
Proof.
  intros Hc Hold Hnew. unfold checkCachedArguments.
  destruct (opt_cache m) as [| | f] eqn:Hopt; [congruence | |];
    (cbv zeta; rewrite Hold, Hnew; cbn [truthy negb get_length];
     change (VNum 0) with (VNum (Z.of_nat 0)); rewrite !strict_eq_lengths;
     destruct (Nat.eqb_spec (length old) (length new)) as [Hlen | Hlen];
     [ pose proof (differs_from_all_identical a' old [] new (eq_sym Hlen)) as Hd;
       cbn [length app] in Hd; rewrite Hd; cbn [negb];
       destruct old as [|c cs], new as [|x xs]; try discriminate; [reflexivity |];
       cbn [length Nat.eqb andb]; now destruct (all_identical (x :: xs) (c :: cs))
     | cbn [negb];
       destruct (all_identical new old) eqn:E;
       [apply all_identical_length in E; congruence |];
       destruct old, new; cbn in Hlen |- *; try reflexivity; congruence ]).
Qed.

(** X1. With a cache option, an array stored as the key and an array
    as the new key (with [cache: true] the new key is the argument
    array): the check vetoes the call exactly when the new key is
    identical ([===]) to the stored one element by element and there is
    at least one element; when both arrays are empty the call runs and
    the stored key is kept; in every other case the call runs and the
    new key is stored. *)
Theorem stored_array_verdict addr args m a old a' new :
  opt_cache m <> NoCache ->
  cachedArguments m = VArr a old ->
  newCachedArguments (opt_cache m) addr args = VArr a' new ->
  checkCachedArguments addr args m =
  Some (if all_identical new old
        then match old with
             | [] => (true, m)
             | _ :: _ => (false, m)
             end
        else (true, set_cachedArguments (VArr a' new) m)).
Proof. apply verdict_with_stored_array. Qed.

Lemma stored_array_verdict_witness :
  checkCachedArguments 1 [VNum 1] load_cached =
  Some (if all_identical [VNum 1] [VNum 1]
        then match [VNum 1] with
             | [] => (true, load_cached)
             | _ :: _ => (false, load_cached)
             end
        else (true, set_cachedArguments (VArr 1 [VNum 1]) load_cached)).
Proof.
  exact (stored_array_verdict 1 [VNum 1] load_cached 0 [VNum 1] 1 [VNum 1]
           ltac:(discriminate) eq_refl eq_refl).
Defined.

Lemma strict_eq_num v n : strict_eq v (VNum n) = true -> v = VNum n.
Proof. destruct v; cbn; try discriminate. intros H. apply Z.eqb_eq in H. now subst. Qed.

(** A call that runs either stores its key or met two empty keys. *)
Lemma check_true_cases addr args m m1 :
  opt_cache m <> NoCache ->
  checkCachedArguments addr args m = Some (true, m1) ->
  m1 = set_cachedArguments (newCachedArguments (opt_cache m) addr args) m
  \/ get_length (newCachedArguments (opt_cache m) addr args) = Some (VNum 0).
Proof.
  intros Hc. unfold checkCachedArguments.
  destruct (opt_cache m) as [| | f] eqn:Hopt; [congruence | |];
    (cbv zeta;
     match goal with
     | |- context [get_length ?k] => set (key := k)
     end;
     destruct (negb (truthy (cachedArguments m))); [intros [= <-]; now left |];
     destruct (cachedArguments m) as [| | bb | n | s | a fs | a old |];
     try (destruct (negb (strict_eq key _)); intros [= <-]; now left);
     destruct (get_length key) as [newLen|]; [| discriminate];
     destruct (strict_eq (VNum (Z.of_nat (length old))) (VNum 0)
               && strict_eq newLen (VNum 0)) eqn:Hz;
     [ intros _; right; apply andb_true_iff in Hz as [_ Hz];
       apply strict_eq_num in Hz; now subst
     | destruct (negb (strict_eq _ newLen)); [intros [= <-]; now left |];
       destruct (differs_from 0 old key); [intros [= <-]; now left | discriminate] ]).
Qed.

Lemma strict_eq_sym a b : strict_eq a b = strict_eq b a.
Proof.
  destruct a, b; cbn; try reflexivity.
  - now destruct b, b0.
  - apply Z.eqb_sym.
  - apply String.eqb_sym.
  - apply Nat.eqb_sym.
  - apply Nat.eqb_sym.
Qed.

Lemma strict_eq_trans a b c :
  strict_eq a b = true -> strict_eq b c = true -> strict_eq a c = true.
Proof.
  destruct a, b; cbn; try discriminate; destruct c; cbn; try discriminate; try reflexivity.
  - intros H1 H2. apply Bool.eqb_prop in H1, H2. subst. apply Bool.eqb_reflx.
  - intros H1 H2. apply Z.eqb_eq in H1, H2. subst. apply Z.eqb_refl.
  - intros H1 H2. apply String.eqb_eq in H1, H2. subst. apply String.eqb_refl.
  - intros H1 H2. apply Nat.eqb_eq in H1, H2. subst. apply Nat.eqb_refl.
  - intros H1 H2. apply Nat.eqb_eq in H1, H2. subst. apply Nat.eqb_refl.
Qed.

Lemma all_identical_trans xs : forall ys zs,
  all_identical xs ys = true -> all_identical ys zs = true -> all_identical xs zs = true.
Proof.
  induction xs as [|x xs IH]; intros [|y ys] [|z zs]; cbn; try discriminate; [reflexivity |].
  intros H1 H2. apply andb_true_iff in H1 as [H1 H1'], H2 as [H2 H2'].
  apply andb_true_iff. split; [now apply (strict_eq_trans x y z) | now apply (IH ys)].
Qed.

(** The check sees the call through its key only. *)
Lemma check_by_key addr1 args1 addr2 args2 m :
  newCachedArguments (opt_cache m) addr1 args1 = newCachedArguments (opt_cache m) addr2 args2 ->
  checkCachedArguments addr1 args1 m = checkCachedArguments addr2 args2 m.
Proof.
  unfold checkCachedArguments.
  destruct (opt_cache m); [reflexivity | |]; cbv zeta; now intros ->.
Qed.

(** The check against a stored key that is not an array. *)
Lemma verdict_with_stored_scalar addr args m :
  opt_cache m <> NoCache ->
  truthy (cachedArguments m) = true ->
  (forall a l, cachedArguments m <> VArr a l) ->
  checkCachedArguments addr args m =
  Some (if strict_eq (newCachedArguments (opt_cache m) addr args) (cachedArguments m)
        then (false, m)
        else (true, set_cachedArguments (newCachedArguments (opt_cache m) addr args) m)).
Proof.
  intros Hc Ht Hna. unfold checkCachedArguments.
  destruct (opt_cache m) as [| | f] eqn:Hopt; [congruence | |];
    (cbv zeta; rewrite Ht; cbn [negb];
     destruct (cachedArguments m) as [| | bb | n | s | a fs | a l |];
     try (now destruct (Hna a l));
     match goal with
     | |- context [negb ?x] => destruct x
     end; reflexivity).
Qed.

(** The check against a stored array. *)
Lemma check_with_stored_array addr args m a old :
  opt_cache m <> NoCache ->
  cachedArguments m = VArr a old ->
  checkCachedArguments addr args m =
  let new := newCachedArguments (opt_cache m) addr args in
  let len := VNum (Z.of_nat (length old)) in
  match get_length new with
  | None => None
  | Some newLen =>
    if strict_eq len (VNum 0) && strict_eq newLen (VNum 0) then Some (true, m)
    else if negb (strict_eq len newLen) then Some (true, set_cachedArguments new m)
    else if differs_from 0 old new then Some (true, set_cachedArguments new m)
    else Some (false, m)
  end.
Proof.
  intros Hc Hold. unfold checkCachedArguments.
  destruct (opt_cache m) as [| | f] eqn:Hopt; [congruence | |];
    cbv zeta; rewrite Hold; reflexivity.
Qed.

Lemma plain_key_truthy k : plain_key k = true -> truthy k = true.
Proof. destruct k; cbn; auto. Qed.

Lemma plain_key_length k : plain_key k = true -> get_length k <> Some (VNum 0).
Proof.
  destruct k as [| | bb | n | s | a fs | a l |]; cbn; try discriminate.
  - destruct s; [discriminate |]. intros _ H. cbn in H. discriminate H.
  - intros H [= E]. now rewrite E in H.
  - intros H [= E]. apply negb_true_iff, Nat.eqb_neq in H. lia.
Qed.

Lemma plain_key_shape k :
  plain_key k = true ->
  (exists a l, k = VArr a l /\ l <> [])
  \/ (exists s, k = VStr s)
  \/ ((forall a l, k <> VArr a l) /\
      forall len, get_length k = Some len -> forall n, len <> VNum n).
Proof.
  destruct k as [| | bb | n | s | a fs | a l |]; cbn; try discriminate; intros H.
  - right. right. split; [discriminate |]. intros len [= <-]. discriminate.
  - right. right. split; [discriminate |]. intros len [= <-]. discriminate.
  - right. left. eauto.
  - right. right. split; [discriminate |]. intros len [= <-] n E. now rewrite E in H.
  - left. exists a, l. split; [reflexivity |]. now destruct l.
Qed.

Lemma plain_key_facts k :
  plain_key k = true ->
  truthy k = true /\ get_length k <> Some (VNum 0) /\
  ((exists a l, k = VArr a l /\ l <> [])
   \/ (exists s, k = VStr s)
   \/ ((forall a l, k <> VArr a l) /\
       forall len, get_length k = Some len -> forall n, len <> VNum n)).
Proof.
  intros H. auto using plain_key_truthy, plain_key_length, plain_key_shape.
Qed.

(** The key that is stored vetoes a call with the same key. *)
Lemma stored_key_vetoes addr args m :
  opt_cache m <> NoCache ->
  plain_key (cachedArguments m) = true ->
  same_key (cachedArguments m) (newCachedArguments (opt_cache m) addr args) = true ->
  checkCachedArguments addr args m = Some (false, m).
Proof.
  intros Hc Hp Hs.
  destruct (plain_key_facts _ Hp) as (Ht & _ & _).
  destruct (cachedArguments m) as [| | bb | n | s | a fs | a l |] eqn:Hold;
    try discriminate.
  5: { destruct (newCachedArguments (opt_cache m) addr args) as [| | | | | | a' l' |] eqn:Hnew;
         try discriminate.
       cbn [same_key] in Hs.
       rewrite (verdict_with_stored_array addr args m a l a' l' Hc Hold Hnew), Hs.
       destruct l; [discriminate | reflexivity]. }
  all: rewrite verdict_with_stored_scalar by (rewrite ?Hold; auto; discriminate);
    rewrite Hold;
    replace (strict_eq (newCachedArguments (opt_cache m) addr args) _) with true
      by (symmetry; destruct (newCachedArguments (opt_cache m) addr args); exact Hs);
    reflexivity.
Qed.

(** A veto carries over to a call with the same key. *)
Lemma veto_carries_over addr1 args1 addr2 args2 m :
  opt_cache m <> NoCache ->
  plain_key (newCachedArguments (opt_cache m) addr1 args1) = true ->
  same_key (newCachedArguments (opt_cache m) addr1 args1)
           (newCachedArguments (opt_cache m) addr2 args2) = true ->
  checkCachedArguments addr1 args1 m = Some (false, m) ->
  checkCachedArguments addr2 args2 m = Some (false, m).
Proof.
  intros Hc Hp Hs Hv.
  remember (newCachedArguments (opt_cache m) addr1 args1) as key1 eqn:Hk1.
  remember (newCachedArguments (opt_cache m) addr2 args2) as key2 eqn:Hk2.
  symmetry in Hk1, Hk2.
  destruct (truthy (cachedArguments m)) eqn:Ht.
  2: { unfold checkCachedArguments in Hv.
       destruct (opt_cache m); [congruence | |]; cbv zeta in Hv; rewrite Ht in Hv;
         discriminate. }
  destruct (plain_key_shape _ Hp) as [(a1 & l1 & -> & Hne) | [(s1 & ->) | (Hna & Hlen)]].
  - (* the key is an array *)
    destruct key2 as [| | | | | | a2 l2 |]; try discriminate. cbn [same_key] in Hs.
    destruct (cachedArguments m) as [| | bb | n | s | a fs | a0 l0 |] eqn:Hold;
      try discriminate.
    5: { rewrite (verdict_with_stored_array addr1 args1 m a0 l0 a1 l1 Hc Hold Hk1) in Hv.
         rewrite (verdict_with_stored_array addr2 args2 m a0 l0 a2 l2 Hc Hold Hk2).
         destruct (all_identical l1 l0) eqn:E1; [| discriminate].
         rewrite (all_identical_trans l2 l1 l0 Hs E1). exact Hv. }
    all: rewrite verdict_with_stored_scalar in Hv by (rewrite ?Hold; auto; discriminate);
      rewrite Hk1, Hold in Hv; discriminate.
  - (* the key is a string *)
    cbn [same_key] in Hs.
    assert (key2 = VStr s1) as ->.
    { destruct key2; cbn in Hs; try discriminate. apply String.eqb_eq in Hs. now subst. }
    rewrite <- Hv. apply check_by_key. congruence.
  - (* the key is neither and has no numeric length *)
    assert (Hs' : strict_eq key2 key1 = true).
    { destruct key1 as [| | | | | | a1 l1 |]; try exact Hs. now destruct (Hna a1 l1). }
    destruct (cachedArguments m) as [| | bb | n | s | a fs | a0 l0 |] eqn:Hold;
      try discriminate.
    5: { exfalso. rewrite (check_with_stored_array addr1 args1 m a0 l0 Hc Hold) in Hv.
         cbv zeta in Hv. rewrite Hk1 in Hv.
         destruct (get_length key1) as [len|] eqn:El; [| discriminate].
         assert (Hd : strict_eq (VNum (Z.of_nat (length l0))) len = false).
         { destruct len; try reflexivity. now destruct (Hlen _ eq_refl n). }
         assert (Hz : strict_eq len (VNum 0) = false).
         { destruct len; try reflexivity. now destruct (Hlen _ eq_refl n). }
         rewrite Hd, Hz, andb_false_r in Hv. discriminate. }
    all: rewrite verdict_with_stored_scalar in Hv |- * by (rewrite ?Hold; auto; discriminate);
      rewrite Hk1, Hold in Hv; rewrite Hk2, Hold;
      match type of Hv with
      | context [if ?c then _ else _] => destruct c eqn:E1; [| discriminate]
      end;
      now rewrite (strict_eq_trans _ _ _ Hs' E1).
Qed.

Lemma repeated_key_aux addr1 addr2 args1 args2 m b m1 :
  opt_cache m <> NoCache ->
  plain_key (newCachedArguments (opt_cache m) addr1 args1) = true ->
  same_key (newCachedArguments (opt_cache m) addr1 args1)
           (newCachedArguments (opt_cache m) addr2 args2) = true ->
  checkCachedArguments addr1 args1 m = Some (b, m1) ->
  checkCachedArguments addr2 args2 m1 = Some (false, m1).
Proof.
  intros Hc Hp Hs Hchk. destruct b.
  - destruct (plain_key_facts _ Hp) as (_ & Hl & _).
    destruct (check_true_cases _ _ _ _ Hc Hchk) as [-> | Hz]; [| contradiction].
    apply stored_key_vetoes; cbn [opt_cache cachedArguments set_cachedArguments]; auto.
  - pose proof (checkCachedArguments_veto _ _ _ _ Hchk) as ->.
    now apply (veto_carries_over addr1 args1).
Qed.

(** X2. Whatever the cache option and whatever was stored before: once
    a call has passed through the check with a key that is a non-empty
    array, a non-empty string or another truthy value without a numeric
    [length], a call that follows it with a key the code finds identical
    (that is [===] to it, element by element for two arrays) is vetoed,
    and the veto leaves the metadata alone.  A key holding [NaN], or a
    key the cache function builds afresh for every call, is not
    identical to the key of the call before. *)
Theorem repeated_key_is_vetoed addr1 addr2 args1 args2 m b m1 :
  opt_cache m <> NoCache ->
  plain_key (newCachedArguments (opt_cache m) addr1 args1) = true ->
  same_key (newCachedArguments (opt_cache m) addr1 args1)
           (newCachedArguments (opt_cache m) addr2 args2) = true ->
  checkCachedArguments addr1 args1 m = Some (b, m1) ->
  checkCachedArguments addr2 args2 m1 = Some (false, m1).
Proof. apply repeated_key_aux. Qed.

Lemma repeated_key_is_vetoed_witness :
  checkCachedArguments 1 [VObj 3 [("id", VNum 7)]]
    (set_cachedArguments (VNum 7)
       (mkMeta true
          (CacheBy (fun _ args => lookup_field "id" (fields_of (nth 0 args VUndefined))))
          false 0 VUndefined))
  = Some (false,
          set_cachedArguments (VNum 7)
            (mkMeta true
               (CacheBy (fun _ args => lookup_field "id" (fields_of (nth 0 args VUndefined))))
               false 0 VUndefined)).
Proof.
  apply (repeated_key_is_vetoed 0 1 [VObj 2 [("id", VNum 7)]] [VObj 3 [("id", VNum 7)]]
           (mkMeta true
              (CacheBy (fun _ args => lookup_field "id" (fields_of (nth 0 args VUndefined))))
              false 0 VUndefined) true);
    [discriminate | reflexivity | reflexivity | reflexivity].
Defined.

Lemma all_identical_nan xs : forall ys, In VNaN xs -> all_identical xs ys = false.
Proof.
  induction xs as [|x xs IH]; intros ys Hin; [destruct Hin |].
  destruct ys as [|y ys]; [reflexivity |]. cbn [all_identical].
  destruct Hin as [-> | Hin]; [reflexivity |].
  rewrite (IH ys Hin). apply andb_false_r.
Qed.

(** X30. [NaN] defeats the dedup: with [cache: true], a call with [NaN]
    among its arguments is never vetoed, whatever is stored, the very
    same arguments included, since [NaN !== NaN]. *)
Theorem nan_argument_is_never_vetoed addr args m :
  opt_cache m = CacheArgs ->
  In VNaN args ->
  fst <$> checkCachedArguments addr args m = Some true.
Proof.
  intros Hc Hin.
  assert (Hne : opt_cache m <> NoCache) by congruence.
  assert (Hnew : newCachedArguments (opt_cache m) addr args = VArr addr args)
    by now rewrite Hc.
  destruct (truthy (cachedArguments m)) eqn:Ht.
  2: { unfold checkCachedArguments. rewrite Hc. cbv zeta. now rewrite Ht. }
  destruct (cachedArguments m) as [| | bb | n | s | a fs | a old |] eqn:Hold;
    try discriminate.
  5: { rewrite (verdict_with_stored_array addr args m a old addr args Hne Hold Hnew).
       now rewrite (all_identical_nan args old Hin). }
  all: rewrite verdict_with_stored_scalar by (rewrite ?Hold; auto; discriminate);
    rewrite Hnew, Hold; reflexivity.
Qed.

Lemma nan_argument_is_never_vetoed_witness :
  fst <$> checkCachedArguments 1 [VNaN]
            (mkMeta true CacheArgs false 1 (VArr 0 [VNaN])) = Some true.
Proof.
  apply (nan_argument_is_never_vetoed 1 [VNaN] (mkMeta true CacheArgs false 1 (VArr 0 [VNaN])));
    [reflexivity | left; reflexivity].
Defined.

(** X3. The check throws (the TypeError of reading [length] on
    [undefined] or [null]) exactly when an array is stored as the key and
    the cache function yields [undefined] or [null]; in particular it
    never throws with [cache: true] or without a cache option. *)
Theorem check_throws_iff addr args m :
  checkCachedArguments addr args m = None <->
  (exists f, opt_cache m = CacheBy f /\ is_nullish (f addr args) = true)
  /\ exists a old, cachedArguments m = VArr a old.
Proof.
  unfold checkCachedArguments. split.
  - intros H.
    destruct (opt_cache m) as [| | f] eqn:Hc; [discriminate | |];
      (destruct (negb (truthy (cachedArguments m))); [discriminate |]);
      (destruct (cachedArguments m) as [| | bb | n | s | a fs | a old |] eqn:Hold;
       try (destruct (negb (strict_eq _ _)); discriminate));
      (match type of H with
       | context [get_length ?x] => destruct (get_length x) eqn:Hl
       end;
       [repeat match type of H with
               | context [if ?x then _ else _] => destruct x
               end; discriminate |]).
    + discriminate.
    + split; [| eauto]. exists f. split; [reflexivity |].
      unfold newCachedArguments in Hl. now destruct (f addr args).
  - intros ((f & Hc & Hnull) & a & old & Hold). rewrite Hc, Hold.
    cbn [truthy negb newCachedArguments].
    destruct (f addr args); try discriminate; reflexivity.
Qed.

(** X4. A falsy key never suppresses a call: when the key computed for
    the call is falsy ([0], the empty string, [false], [null],
    [undefined]), the check does not answer [false], whatever is
    stored. *)
Theorem falsy_key_never_vetoes addr args m :
  truthy (newCachedArguments (opt_cache m) addr args) = false ->
  fst <$> checkCachedArguments addr args m <> Some false.
Proof.
  intros Hnew. unfold checkCachedArguments.
  destruct (opt_cache m) as [| | f] eqn:Hc; [discriminate | discriminate |].
  cbn [newCachedArguments] in *.
  destruct (negb (truthy (cachedArguments m))) eqn:Ht; [discriminate |].
  apply negb_false_iff in Ht.
  assert (Hne : strict_eq (f addr args) (cachedArguments m) = false).
  { destruct (strict_eq (f addr args) (cachedArguments m)) eqn:E; [| reflexivity].
    apply strict_eq_truthy in E. congruence. }
  destruct (cachedArguments m) as [| | bb | n | s | a fs | a old |] eqn:Hold;
    try (rewrite Hne; discriminate).
  destruct (f addr args) as [| | bb | n | s | a' fs | a' new |]; try discriminate;
    cbn [get_length]; try discriminate.
  - cbn [strict_eq andb negb]. rewrite andb_false_r. discriminate.
  - cbn [strict_eq andb negb]. rewrite andb_false_r. discriminate.
  - destruct s; [| discriminate]. cbn [String.length].
    change (VNum 0) with (VNum (Z.of_nat 0)). rewrite !strict_eq_lengths.
    destruct (length old =? 0)%nat; discriminate.
  - cbn [strict_eq andb negb]. rewrite andb_false_r. discriminate.
Qed.

Lemma falsy_key_never_vetoes_witness :
  fst <$> checkCachedArguments 1 [VNum 0]
            (mkMeta true (CacheBy (fun _ args => nth 0 args VUndefined)) false 1 (VNum 0))
  <> Some false.
Proof.
  apply (falsy_key_never_vetoes 1 [VNum 0]
           (mkMeta true (CacheBy (fun _ args => nth 0 args VUndefined)) false 1 (VNum 0))).
  reflexivity.
Defined.

(** ** The metadata along a run *)

Lemma invoke_meta st addr args r w :
  match checkCachedArguments addr args (meta w) with
  | None => meta (invoke st addr args r w) = meta w
  | Some (_, m) =>
    meta (invoke st addr args r w) = m \/
    meta (invoke st addr args r w) = set_callCount (S (callCount m)) m
  end.
Proof.
  destruct w as [m0 s d h cs es ws]. unfold invoke. cbn [meta calls].
  destruct (checkCachedArguments addr args m0) as [[[] m]|]; [| now left | reflexivity].
  unfold wrapPayloadCreator, dispatch, create. cbn [meta set_meta].
  destruct (hasHandleError st); cbn [negb]; [destruct (isAsync m) eqn:Ha |];
    destruct r; unfold_world; cbn [isAsync set_callCount]; rewrite ?Ha;
    try destruct (isAsync m); unfold_world; auto.
Qed.

Lemma step_meta st w ev :
  is_invoke ev = false -> meta (step st w ev) = meta w.
Proof.
  destruct ev as [addr args r | c o | c |]; [discriminate | | |]; intros _; cbn [step].
  - destruct (calls w !! c) as [[| | |b a|]|] eqn:E;
      try (rewrite settle_payload_idle by (intros ? ?; congruence); reflexivity).
    destruct a as [| n | o'];
      [| | rewrite settle_payload_idle
             by (intros ? ? H; rewrite E in H; injection H as <- <-; eauto); reflexivity];
      now rewrite (settle_payload_flat st c o w _ _ E) by discriminate.
  - destruct (calls w !! c) as [[| | |b [| n |o]|]|] eqn:E;
      try (rewrite resume_idle by (intros ? ?; congruence); reflexivity).
    now rewrite (resume_flat st c b o w E).
  - unfold waitForAction. now destruct (a_deferred w).
Qed.

Lemma run_meta st evs : forall w,
  Forall (fun ev => is_invoke ev = false) evs -> meta (run st w evs) = meta w.
Proof.
  induction evs as [|ev evs IH]; intros w H; [reflexivity |].
  inversion H as [|? ? Hev Hevs]; subst.
  rewrite run_cons, IH by assumption. now apply step_meta.
Qed.

Lemma step_static st w ev :
  let m := meta w in
  let m' := meta (step st w ev) in
  isAsync m' = isAsync m /\ opt_cache m' = opt_cache m /\ opt_latest m' = opt_latest m /\
  callCount m <= callCount m' <= callCount m + (if is_invoke ev then 1 else 0).
Proof.
  cbv zeta. destruct (is_invoke ev) eqn:Hev.
  - destruct ev as [addr args r | | |]; try discriminate. cbn [step].
    pose proof (invoke_meta st addr args r w) as H.
    destruct (checkCachedArguments addr args (meta w)) as [[b m]|] eqn:E.
    + destruct (checkCachedArguments_static _ _ _ _ _ E) as (H1 & H2 & H3 & H4).
      destruct H as [-> | ->]; cbn [isAsync opt_cache opt_latest callCount set_callCount];
        rewrite ?H1, ?H2, ?H3, ?H4; repeat split; lia.
    + rewrite H. repeat split; lia.
  - rewrite (step_meta st w ev Hev). repeat split; lia.
Qed.

Lemma run_static st evs : forall w,
  let m := meta w in
  let m' := meta (run st w evs) in
  isAsync m' = isAsync m /\ opt_cache m' = opt_cache m /\ opt_latest m' = opt_latest m /\
  callCount m <= callCount m' <= callCount m + invocations evs.
Proof.
  unfold invocations.
  induction evs as [|ev evs IH]; intros w; cbv zeta; [cbn; repeat split; lia |].
  rewrite run_cons.
  destruct (IH (step st w ev)) as (H1 & H2 & H3 & H4).
  destruct (step_static st w ev) as (G1 & G2 & G3 & G4).
  rewrite H1, H2, H3, G1, G2, G3. repeat split; try lia.
  cbn [List.filter]. destruct (is_invoke ev); cbn [length]; lia.
Qed.

(** X5. Along any run the options of the action ([isAsync], [cache],
    [latest]) stay as declared, and the call counter never decreases: it
    grows by at most one for each invocation and by nothing for any other
    event. *)
Theorem options_are_fixed_and_calls_are_counted st evs w :
  let m := meta w in
  let m' := meta (run st w evs) in
  isAsync m' = isAsync m /\ opt_cache m' = opt_cache m /\ opt_latest m' = opt_latest m /\
  callCount m <= callCount m' <= callCount m + invocations evs.
Proof. apply run_static. Qed.

(** ** Results that are kept *)

Lemma wrapped_outcome_kept st m o w1 :
  (hasHandleError st = true ->
   opt_latest (meta w1) = false \/ callCount (meta w1) = S (callCount m)) ->
  wrapped_outcome (awaiting_of st m) o w1 = o.
Proof.
  intros H. unfold awaiting_of, wrapped_outcome.
  destruct (hasHandleError st); [| now destruct o].
  destruct o as [v|e]; [| reflexivity].
  destruct (H eq_refl) as [-> | ->]; [reflexivity |].
  now rewrite Nat.eqb_refl, andb_false_r.
Qed.

Lemma invoke_async_meta st addr args w :
  isAsync (meta w) = true ->
  fst <$> checkCachedArguments addr args (meta w) = Some true ->
  let m' := meta (invoke st addr args ReturnsPromise w) in
  opt_latest m' = opt_latest (meta w) /\
  (hasHandleError st = true -> callCount m' = S (callCount (meta w))).
Proof.
  intros Ha Hchk.
  destruct (checkCachedArguments addr args (meta w)) as [[b m]|] eqn:E; [| discriminate].
  cbn in Hchk. injection Hchk as ->.
  destruct (checkCachedArguments_static _ _ _ _ _ E) as (_ & Hl & _ & Hn).
  rewrite (invoke_async_promise st addr args w m Ha E). cbn [meta].
  destruct (hasHandleError st); cbn [opt_latest callCount set_callCount];
    split; auto; discriminate.
Qed.

(** X6. An action declared without [latest] never drops a result: an
    async-declared invocation, with anything else (further invocations
    included) happening in between, returns what its promise settled
    with ([null] for a falsy value) and dispatches START followed by
    SUCCESS with the projected value, or by ERROR with the error. *)
Theorem without_latest_every_result_is_kept st w addr args evs1 o evs2 :
  isAsync (meta w) = true ->
  opt_latest (meta w) = false ->
  fst <$> checkCachedArguments addr args (meta w) = Some true ->
  let c := length (calls w) in
  Forall (fun ev => addresses c ev = false) evs1 ->
  Forall (fun ev => addresses c ev = false) evs2 ->
  let w1 := run st (invoke st addr args ReturnsPromise w) evs1 in
  let w2 := run st (settle_payload st c o w1) evs2 in
  let w3 := resume st c w2 in
  calls w3 !! c = Some (Settled (returned o)) /\
  dispatched_by c (effects w3) =
    dispatched_by c (effects w)
    ++ (getTypeWithState (actionType st) START, startPayload addr args) :: async_tail st o.
Proof.
  intros Ha Hl Hchk c Hevs1 Hevs2 w1 w2 w3.
  pose proof (async_call_trace st w addr args evs1 o evs2 Ha Hchk Hevs1 Hevs2) as H.
  cbv zeta in H. rewrite wrapped_outcome_kept in H; [exact H |].
  intros _. left.
  destruct (run_static st evs1 (invoke st addr args ReturnsPromise w)) as (_ & _ & -> & _).
  destruct (invoke_async_meta st addr args w Ha Hchk) as (-> & _). exact Hl.
Qed.

Lemma without_latest_every_result_is_kept_witness :
  let st := profile in
  let w := fresh load_meta in
  let evs1 := [Invoke 1 [VNum 2] ReturnsPromise; SettlePayload 1 (Resolves user); Resume 1] in
  let o := Resolves user in
  let c := length (calls w) in
  let w1 := run st (invoke st 0 [VNum 1] ReturnsPromise w) evs1 in
  let w2 := run st (settle_payload st c o w1) [] in
  let w3 := resume st c w2 in
  calls w3 !! c = Some (Settled (returned o)) /\
  dispatched_by c (effects w3) =
    dispatched_by c (effects w)
    ++ (getTypeWithState (actionType st) START, startPayload 0 [VNum 1]) :: async_tail st o.
Proof.
  exact (without_latest_every_result_is_kept profile (fresh load_meta) 0 [VNum 1]
           [Invoke 1 [VNum 2] ReturnsPromise; SettlePayload 1 (Resolves user); Resume 1]
           (Resolves user) [] eq_refl eq_refl eq_refl
           ltac:(repeat constructor) ltac:(constructor)).
Defined.

(** X7. The newest call keeps its result: when no further invocation
    is made from an async-declared invocation up to the moment its
    wrapper resumes after the [await] of line 78 (where the [latest]
    test of line 79 is made; an invocation made after the promise has
    settled but before the wrapper resumes counts as made before), the
    invocation returns what the promise settled with and dispatches
    START followed by SUCCESS or ERROR, with [latest] or without it.
    Continuations of older invocations and waits may happen at any
    point, and further invocations once the wrapper has resumed. *)
Theorem newest_call_keeps_its_result st w addr args evs1 o evs2 :
  isAsync (meta w) = true ->
  fst <$> checkCachedArguments addr args (meta w) = Some true ->
  let c := length (calls w) in
  Forall (fun ev => addresses c ev = false) evs1 ->
  Forall (fun ev => is_invoke ev = false) evs1 ->
  Forall (fun ev => addresses c ev = false) evs2 ->
  let w1 := run st (invoke st addr args ReturnsPromise w) evs1 in
  let w2 := run st (settle_payload st c o w1) evs2 in
  let w3 := resume st c w2 in
  calls w3 !! c = Some (Settled (returned o)) /\
  dispatched_by c (effects w3) =
    dispatched_by c (effects w)
    ++ (getTypeWithState (actionType st) START, startPayload addr args) :: async_tail st o.
Proof.
  intros Ha Hchk c Hevs1 Hinv Hevs2 w1 w2 w3.
  pose proof (async_call_trace st w addr args evs1 o evs2 Ha Hchk Hevs1 Hevs2) as H.
  cbv zeta in H. rewrite wrapped_outcome_kept in H; [exact H |].
  intros Hh. right. rewrite (run_meta st evs1 _ Hinv).
  now apply (invoke_async_meta st addr args w Ha Hchk).
Qed.

Lemma newest_call_keeps_its_result_witness :
  let st := profile in
  let w := world_in_flight in
  let evs1 := [WaitForAction; SettlePayload 0 (Resolves user); Resume 0] in
  let o := Resolves user in
  let c := length (calls w) in
  let w1 := run st (invoke st 1 [VNum 2] ReturnsPromise w) evs1 in
  let w2 := run st (settle_payload st c o w1) [] in
  let w3 := resume st c w2 in
  calls w3 !! c = Some (Settled (returned o)) /\
  dispatched_by c (effects w3) =
    dispatched_by c (effects w)
    ++ (getTypeWithState (actionType st) START, startPayload 1 [VNum 2]) :: async_tail st o.
Proof.
  exact (newest_call_keeps_its_result profile world_in_flight 1 [VNum 2]
           [WaitForAction; SettlePayload 0 (Resolves user); Resume 0]
           (Resolves user) [] eq_refl eq_refl
           ltac:(repeat constructor) ltac:(repeat constructor) ltac:(constructor)).
Defined.

(** ** Single invocations, start to end *)

Lemma effects_since_app w es h' m' s' d' cs' ws' :
  effects_since w (mkWorld m' s' d' h' cs' (effects w ++ es) ws') = es.
Proof. unfold effects_since. cbn [effects]. apply drop_at. Qed.

(** An invocation whose payload creator hands [dispatch] a value that is
    not a promise. *)
Lemma invoke_plain st addr args v w m :
  checkCachedArguments addr args (meta w) = Some (true, m) ->
  isAsync (meta w) = false \/ hasHandleError st = false ->
  invoke st addr args (Returns v) w =
  let c := length (calls w) in
  mkWorld (if hasHandleError st then set_callCount (S (callCount m)) m else m)
          (a_state w)
          None
          (heap w ++ [mkDeferred (a_deferred w) false Resolved c])
          (calls w ++ [Settled (Resolves v)])
          (effects w ++ [(c, StoreDispatch (getType (actionType st)) (selectGlobalState st v));
                         (c, Resolve (length (heap w)))])
          (waits w).
Proof.
  intros Hchk Hsync.
  destruct (checkCachedArguments_static _ _ _ _ _ Hchk) as (Ha' & _).
  unfold invoke. rewrite Hchk. clear Hchk.
  unfold wrapPayloadCreator.
  destruct w as [m0 s d h cs es ws]. cbn [meta set_meta] in *.
  destruct (hasHandleError st); cbn [negb].
  - destruct Hsync as [Ha | Hh]; [| discriminate]. rewrite Ha in Ha'. rewrite Ha'.
    unfold dispatch, create. unfold_world. unfold resolve. list_norm.
    cbn [settle settlement previous subscribedTo creator]. list_tidy. reflexivity.
  - unfold dispatch, create. unfold_world. unfold resolve. list_norm.
    cbn [settle settlement previous subscribedTo creator]. list_tidy. reflexivity.
Qed.

(** X8. The synchronous path.  When the payload creator returns a value
    that is not a promise (for an async-declared action: only when the
    store has no error sink), the invocation dispatches exactly one
    action, of the base type, with the projected payload, falsy payloads
    included; it returns the payload as it is, leaves the lifecycle state
    alone, and the deferred it created is resolved and no longer
    referenced when it returns. *)
Theorem plain_payload_is_dispatched_once st addr args v w :
  fst <$> checkCachedArguments addr args (meta w) = Some true ->
  isAsync (meta w) = false \/ hasHandleError st = false ->
  let c := length (calls w) in
  let w' := invoke st addr args (Returns v) w in
  calls w' = calls w ++ [Settled (Resolves v)] /\
  effects_since w w' =
    [(c, StoreDispatch (getType (actionType st)) (selectGlobalState st v));
     (c, Resolve (length (heap w)))] /\
  a_state w' = a_state w /\
  a_deferred w' = None /\
  settlement_of (length (heap w)) (heap w') = Some Resolved.
Proof.
  intros Hchk Hsync c w'.
  destruct (checkCachedArguments addr args (meta w)) as [[b m]|] eqn:E; [| discriminate].
  cbn in Hchk. injection Hchk as ->.
  subst w'. rewrite (invoke_plain st addr args v w m E Hsync). cbv zeta.
  rewrite effects_since_app. cbn [calls a_state a_deferred heap].
  repeat split. unfold settlement_of. now rewrite lookup_at_0.
Qed.

Lemma plain_payload_is_dispatched_once_witness :
  let st := profile in
  let w := fresh (declare (Plain (fun s _ _ => s)) NoCache false) in
  let c := length (calls w) in
  let w' := invoke st 0 [] (Returns VUndefined) w in
  calls w' = calls w ++ [Settled (Resolves VUndefined)] /\
  effects_since w w' =
    [(c, StoreDispatch (getType (actionType st)) (selectGlobalState st VUndefined));
     (c, Resolve (length (heap w)))] /\
  a_state w' = a_state w /\
  a_deferred w' = None /\
  settlement_of (length (heap w)) (heap w') = Some Resolved.
Proof.
  exact (plain_payload_is_dispatched_once profile 0 [] VUndefined
           (fresh (declare (Plain (fun s _ _ => s)) NoCache false))
           eq_refl (or_introl eq_refl)).
Defined.

(** An invocation of an action that is not async-declared and whose
    payload creator returns a promise. *)
Lemma invoke_sync_promise st addr args w m :
  isAsync (meta w) = false ->
  checkCachedArguments addr args (meta w) = Some (true, m) ->
  invoke st addr args ReturnsPromise w =
  let c := length (calls w) in
  mkWorld (if hasHandleError st then set_callCount (S (callCount m)) m else m)
          (a_state w)
          (Some (length (heap w)))
          (heap w ++ [mkDeferred (a_deferred w) false Pending c])
          (calls w ++ [Suspended SyncDeclared OnUser])
          (effects w)
          (waits w).
Proof.
  intros Ha Hchk.
  destruct (checkCachedArguments_static _ _ _ _ _ Hchk) as (Ha' & _).
  rewrite Ha in Ha'.
  unfold invoke. rewrite Hchk. clear Hchk Ha.
  unfold wrapPayloadCreator.
  destruct w as [m0 s d h cs es ws]. cbn [meta set_meta].
  destruct (hasHandleError st); cbn [negb]; rewrite ?Ha';
    unfold dispatch, create; unfold_world; cbn [isAsync set_callCount];
    rewrite Ha'; reflexivity.
Qed.

(** X9. An action that is not async-declared and whose payload creator
    returns a promise.  When the promise resolves with a truthy value the
    invocation dispatches exactly one action, of the base type, with the
    projected value, and resolves its deferred; with a falsy value it
    dispatches nothing, returns [null] and resolves its deferred.  When
    the promise rejects the invocation rejects with the error and makes
    no call at all: nothing is dispatched, the error sink is not called,
    and the deferred, which nobody waited on, is left pending.  No
    lifecycle subscriber is called and the lifecycle state is not
    touched in any case. *)
Theorem promise_of_a_plain_action st addr args o w :
  isAsync (meta w) = false ->
  fst <$> checkCachedArguments addr args (meta w) = Some true ->
  let c := length (calls w) in
  let d := length (heap w) in
  let w' := run st w [Invoke addr args ReturnsPromise; SettlePayload c o; Resume c] in
  calls w' !! c = Some (Settled (returned o)) /\
  effects_since w w' =
    match o with
    | Resolves v =>
      (if truthy v
       then [(c, StoreDispatch (getType (actionType st)) (selectGlobalState st v))]
       else []) ++ [(c, Resolve d)]
    | Rejects _ => []
    end /\
  a_state w' = a_state w /\
  a_deferred w' = None /\
  settlement_of d (heap w') =
    Some match o with
         | Resolves _ => Resolved
         | Rejects _ => Pending
         end.
Proof.
  intros Ha Hchk c d w'.
  destruct (checkCachedArguments addr args (meta w)) as [[b m]|] eqn:E; [| discriminate].
  cbn in Hchk. injection Hchk as ->.
  subst w' c d. rewrite run_cons. cbn [step].
  rewrite (invoke_sync_promise st addr args w m Ha E). cbv zeta.
  do_settle. do_resume. cbn [run fold_left].
  cbn [calls a_state a_deferred heap]. rewrite effects_since_app.
  unfold settlement_of, is_subscribed, resolve.
  destruct o as [v|e]; cbn [announce state_after wrapped_outcome]; list_norm;
    cbn [subscribedTo settle settlement fmap option_fmap option_map app map];
    list_norm; repeat split; try reflexivity.
  destruct (truthy v); reflexivity.
Qed.

Lemma promise_of_a_plain_action_witness :
  let st := profile in
  let w := fresh (declare (Plain (fun s _ _ => s)) NoCache false) in
  let o := Rejects boom in
  let c := length (calls w) in
  let d := length (heap w) in
  let w' := run st w [Invoke 0 [] ReturnsPromise; SettlePayload c o; Resume c] in
  calls w' !! c = Some (Settled (returned o)) /\
  effects_since w w' =
    match o with
    | Resolves v =>
      (if truthy v
       then [(c, StoreDispatch (getType (actionType st)) (selectGlobalState st v))]
       else []) ++ [(c, Resolve d)]
    | Rejects _ => []
    end /\
  a_state w' = a_state w /\
  a_deferred w' = None /\
  settlement_of d (heap w') =
    Some match o with
         | Resolves _ => Resolved
         | Rejects _ => Pending
         end.
Proof.
  exact (promise_of_a_plain_action profile 0 [] (Rejects boom)
           (fresh (declare (Plain (fun s _ _ => s)) NoCache false)) eq_refl eq_refl).
Defined.

(** X10. An async-declared invocation whose promise rejects, start to
    end with nothing in between: the calls it makes are, in this order,
    the START announcement (lifecycle subscribers, then the dispatch),
    the error sink with the error and the base type (when the store has
    one), and the ERROR announcement with the error as payload.  The
    caller gets the error back, the lifecycle state ends as ERROR, and
    the deferred, which nobody waited on, is dropped unsettled. *)
Theorem failed_call_reports_then_announces st addr args e w :
  isAsync (meta w) = true ->
  fst <$> checkCachedArguments addr args (meta w) = Some true ->
  let c := length (calls w) in
  let d := length (heap w) in
  let w' := run st w [Invoke addr args ReturnsPromise; SettlePayload c (Rejects e); Resume c] in
  effects_since w w' =
    map (pair c)
        (lifecycle_effects st START (startPayload addr args)
         ++ (if hasHandleError st then [HandleError e (actionType st)] else [])
         ++ lifecycle_effects st ERROR e) /\
  calls w' !! c = Some (Settled (Rejects e)) /\
  a_state w' = Some ERROR /\
  a_deferred w' = None /\
  settlement_of d (heap w') = Some Pending.
Proof.
  intros Ha Hchk c d w'.
  destruct (checkCachedArguments addr args (meta w)) as [[b m]|] eqn:E; [| discriminate].
  cbn in Hchk. injection Hchk as ->.
  subst w' c d. rewrite run_cons. cbn [step].
  rewrite (invoke_async_promise st addr args w m Ha E). cbv zeta.
  unfold awaiting_of.
  destruct (hasHandleError st); do_settle; do_resume; cbn [run fold_left];
    cbn [calls a_state a_deferred heap]; rewrite effects_since_app;
    unfold settlement_of, is_subscribed; cbn [announce]; list_norm;
    cbn [subscribedTo settlement fmap option_fmap option_map app map];
    list_norm; list_tidy; repeat split; reflexivity.
Qed.

Lemma failed_call_reports_then_announces_witness :
  let st := profile in
  let w := fresh load_meta in
  let e := boom in
  let c := length (calls w) in
  let d := length (heap w) in
  let w' := run st w [Invoke 0 [VNum 1] ReturnsPromise; SettlePayload c (Rejects e); Resume c] in
  effects_since w w' =
    map (pair c)
        (lifecycle_effects st START (startPayload 0 [VNum 1])
         ++ (if hasHandleError st then [HandleError e (actionType st)] else [])
         ++ lifecycle_effects st ERROR e) /\
  calls w' !! c = Some (Settled (Rejects e)) /\
  a_state w' = Some ERROR /\
  a_deferred w' = None /\
  settlement_of d (heap w') = Some Pending.
Proof.
  exact (failed_call_reports_then_announces profile 0 [VNum 1] boom (fresh load_meta)
           eq_refl eq_refl).
Defined.

(** An invocation of an async-declared action, on a store with an error
    sink, whose payload creator throws or returns something that is not
    a promise. *)
Lemma invoke_async_failure st addr args r w m :
  hasHandleError st = true ->
  isAsync (meta w) = true ->
  checkCachedArguments addr args (meta w) = Some (true, m) ->
  r <> ReturnsPromise ->
  invoke st addr args r w =
  let c := length (calls w) in
  mkWorld m
          (Some START)
          (Some (length (heap w)))
          (heap w ++ [mkDeferred (a_deferred w) false Pending c])
          (calls w ++ [Suspended AsyncDeclared (Ready (Rejects (creator_error st r)))])
          (effects w ++ map (pair c) (HandleError (creator_error st r) (actionType st)
                                      :: lifecycle_effects st START (startPayload addr args)))
          (waits w).
Proof.
  intros Hh Ha Hchk Hr.
  destruct (checkCachedArguments_static _ _ _ _ _ Hchk) as (Ha' & _).
  rewrite Ha in Ha'.
  unfold invoke. rewrite Hchk. clear Hchk Ha.
  unfold wrapPayloadCreator, lifecycle_effects, creator_error.
  destruct w as [m0 s d h cs es ws]. cbn [meta set_meta].
  rewrite Hh. cbn [negb]. rewrite Ha'.
  destruct r; [| congruence |];
    unfold dispatch, create; unfold_world; rewrite Ha'; cbn [map]; list_tidy;
    cbn [app]; reflexivity.
Qed.

(** X11. On a store with an error sink, an async-declared action whose
    payload creator throws, or returns something that is not a promise,
    does not throw to its caller: the invocation is suspended like any
    other and rejects later with the error (the assertion error in the
    second case).  The sink is called first, then START is announced
    all the same, then ERROR; the call is not counted, so it makes no
    other call stale. *)
Theorem creator_failure_is_announced st addr args r w :
  hasHandleError st = true ->
  isAsync (meta w) = true ->
  fst <$> checkCachedArguments addr args (meta w) = Some true ->
  r <> ReturnsPromise ->
  let c := length (calls w) in
  let e := creator_error st r in
  let w1 := invoke st addr args r w in
  let w' := resume st c w1 in
  calls w1 !! c = Some (Suspended AsyncDeclared (Ready (Rejects e))) /\
  calls w' !! c = Some (Settled (Rejects e)) /\
  effects_since w w' =
    map (pair c)
        (HandleError e (actionType st)
         :: lifecycle_effects st START (startPayload addr args)
         ++ lifecycle_effects st ERROR e) /\
  callCount (meta w') = callCount (meta w) /\
  a_state w' = Some ERROR.
Proof.
  intros Hh Ha Hchk Hr c e w1 w'.
  destruct (checkCachedArguments addr args (meta w)) as [[b m]|] eqn:E; [| discriminate].
  cbn in Hchk. injection Hchk as ->.
  destruct (checkCachedArguments_static _ _ _ _ _ E) as (_ & _ & _ & Hn).
  subst w' w1 e c.
  rewrite (invoke_async_failure st addr args r w m Hh Ha E Hr). cbv zeta.
  split; [cbn [calls]; apply lookup_at_0 |].
  erewrite resume_flat by (cbn [calls]; apply lookup_at_0).
  proj_norm. list_norm. rewrite effects_since_app.
  unfold is_subscribed. list_norm. cbn [subscribedTo announce app map].
  list_tidy. repeat split; try reflexivity. exact Hn.
Qed.

Lemma creator_failure_is_announced_witness :
  let st := profile in
  let w := fresh load_meta in
  let r := Returns (VNum 5) in
  let c := length (calls w) in
  let e := creator_error st r in
  let w1 := invoke st 0 [VNum 1] r w in
  let w' := resume st c w1 in
  calls w1 !! c = Some (Suspended AsyncDeclared (Ready (Rejects e))) /\
  calls w' !! c = Some (Settled (Rejects e)) /\
  effects_since w w' =
    map (pair c)
        (HandleError e (actionType st)
         :: lifecycle_effects st START (startPayload 0 [VNum 1])
         ++ lifecycle_effects st ERROR e) /\
  callCount (meta w') = callCount (meta w) /\
  a_state w' = Some ERROR.
Proof.
  exact (creator_failure_is_announced profile 0 [VNum 1] (Returns (VNum 5)) (fresh load_meta)
           eq_refl eq_refl eq_refl ltac:(discriminate)).
Defined.

(** ** The referenced deferred *)

Lemma step_pending st w ev : deferred_pending w -> deferred_pending (step st w ev).
Proof.
  unfold deferred_pending. intros Hinv.
  destruct ev as [addr args r | c o | c |]; cbn [step].
  - destruct w as [m0 s d h cs es ws]. cbn [a_deferred heap] in Hinv.
    unfold invoke, wrapPayloadCreator, dispatch, create. cbn [meta calls set_meta].
    destruct (checkCachedArguments addr args m0) as [[[] m]|]; [| exact Hinv | exact Hinv].
    destruct (hasHandleError st); cbn [negb]; [destruct (isAsync m) eqn:Ha |];
      destruct r; unfold_world; cbn [isAsync set_callCount]; rewrite ?Ha;
      try destruct (isAsync m); unfold_world;
      try exact Hinv; try exact I;
      unfold settlement_of; now rewrite lookup_at_0.
  - destruct (calls w !! c) as [[| | |b a|]|] eqn:E;
      try (rewrite settle_payload_idle by (intros ? ?; congruence); exact Hinv).
    destruct a as [| n | o'];
      [| | rewrite settle_payload_idle
             by (intros ? ? H; rewrite E in H; injection H as <- <-; eauto); exact Hinv];
      now rewrite (settle_payload_flat st c o w _ _ E) by discriminate.
  - destruct (calls w !! c) as [[| | |b [| n |o]|]|] eqn:E;
      try (rewrite resume_idle by (intros ? ?; congruence); exact Hinv).
    now rewrite (resume_flat st c b o w E).
  - unfold waitForAction. destruct (a_deferred w) as [d|] eqn:Hd;
      cbn [add_wait set_heap a_deferred heap]; rewrite Hd; [| exact I].
    now rewrite settlement_of_markSubscribed.
Qed.

Lemma run_pending st evs : forall w, deferred_pending w -> deferred_pending (run st w evs).
Proof.
  induction evs as [|ev evs IH]; intros w H; [exact H |].
  rewrite run_cons. apply IH. now apply step_pending.
Qed.

(** X13. In every world reached from a freshly declared action, by any
    events, the deferred the action references (if any) is unsettled: a
    deferred is settled only by the continuation that clears the
    reference.  So [waitForAction] either returns at once, when the
    reference is null, or hands out a promise that is still pending. *)
Theorem referenced_deferred_is_pending st m evs :
  let w := run st (fresh m) evs in
  deferred_pending w /\
  wait_result (waitForAction w) (length (waits w)) =
    match a_deferred w with
    | None => Some (Resolves VUndefined)
    | Some _ => None
    end.
Proof.
  cbv zeta. set (w := run st (fresh m) evs).
  assert (H : deferred_pending w) by (apply run_pending; exact I).
  split; [exact H |].
  unfold deferred_pending in H. unfold waitForAction, wait_result.
  destruct (a_deferred w) as [d|]; cbn [add_wait set_heap waits heap]; rewrite lookup_at_0;
    [| reflexivity].
  now rewrite settlement_of_markSubscribed, H.
Qed.

(** ** The order of the check and the payload creator *)

Lemma check_ignores_callCount addr args n m :
  checkCachedArguments addr args (set_callCount n m) =
  match checkCachedArguments addr args m with
  | Some (b, m') => Some (b, set_callCount n m')
  | None => None
  end.
Proof.
  destruct m as [ia c l k cached]. unfold checkCachedArguments, set_callCount.
  cbn [isAsync opt_cache opt_latest callCount cachedArguments].
  destruct c; [reflexivity | |]; cbv zeta;
    repeat match goal with
           | |- context [if ?x then _ else _] => destruct x
           | |- context [match ?x with _ => _ end] => destruct x
           end; reflexivity.
Qed.

(** X14. The key of a call is stored before the payload creator runs
    and stays stored whatever the payload creator does: after an
    invocation whose key is a non-empty array, a non-empty string or
    another truthy value without a numeric [length], however that
    invocation went (it may have thrown, or still be in flight), an
    invocation with a key the code finds identical to that one ([===],
    element by element for two arrays) is vetoed.  A key holding [NaN],
    or built afresh by the cache function for every call, is not
    identical to the key before. *)
Theorem key_is_stored_before_the_call st addr1 addr2 args1 args2 r1 r2 w :
  opt_cache (meta w) <> NoCache ->
  plain_key (newCachedArguments (opt_cache (meta w)) addr1 args1) = true ->
  same_key (newCachedArguments (opt_cache (meta w)) addr1 args1)
           (newCachedArguments (opt_cache (meta w)) addr2 args2) = true ->
  checkCachedArguments addr1 args1 (meta w) <> None ->
  let w1 := invoke st addr1 args1 r1 w in
  calls (invoke st addr2 args2 r2 w1) = calls w1 ++ [Vetoed].
Proof.
  intros Hc Hp Hs Hsome w1.
  pose proof (invoke_meta st addr1 args1 r1 w) as Hm. fold w1 in Hm.
  destruct (checkCachedArguments addr1 args1 (meta w)) as [[b m]|] eqn:Hchk; [| congruence].
  pose proof (repeated_key_aux addr1 addr2 args1 args2 (meta w) b m Hc Hp Hs Hchk) as V.
  assert (V1 : fst <$> checkCachedArguments addr2 args2 (meta w1) = Some false).
  { destruct Hm as [-> | ->]; [now rewrite V |].
    now rewrite check_ignores_callCount, V. }
  unfold invoke.
  destruct (checkCachedArguments addr2 args2 (meta w1)) as [[[] m']|]; try discriminate.
  reflexivity.
Qed.

Lemma key_is_stored_before_the_call_witness :
  let st := profile in
  let w := fresh (declare (Lifecycle (mkHandlers None None None)) CacheArgs false) in
  let w1 := invoke st 0 [VNum 1] (Throws boom) w in
  calls (invoke st 1 [VNum 1] ReturnsPromise w1) = calls w1 ++ [Vetoed].
Proof.
  exact (key_is_stored_before_the_call profile 0 1 [VNum 1] [VNum 1] (Throws boom)
           ReturnsPromise
           (fresh (declare (Lifecycle (mkHandlers None None None)) CacheArgs false))
           ltac:(discriminate) eq_refl eq_refl ltac:(discriminate)).
Defined.

(** X15. A payload creator that throws in an invocation that is not
    wrapped as async (the action is not async-declared, or the store has
    no error sink): the invocation throws the error to its caller, the
    sink (when there is one) is called once with the error and the base
    type, nothing is dispatched, no deferred is created and the action
    keeps the deferred and the lifecycle state it had. *)
Theorem thrown_payload_creates_nothing st addr args e w :
  fst <$> checkCachedArguments addr args (meta w) = Some true ->
  isAsync (meta w) = false \/ hasHandleError st = false ->
  let c := length (calls w) in
  let w' := invoke st addr args (Throws e) w in
  calls w' = calls w ++ [Threw e] /\
  effects w' = effects w ++ (if hasHandleError st then [(c, HandleError e (actionType st))]
                             else []) /\
  heap w' = heap w /\
  a_deferred w' = a_deferred w /\
  a_state w' = a_state w.
Proof.
  intros Hchk Hsync c w'.
  destruct (checkCachedArguments addr args (meta w)) as [[b m]|] eqn:E; [| discriminate].
  cbn in Hchk. injection Hchk as ->.
  destruct (checkCachedArguments_static _ _ _ _ _ E) as (Ha' & _).
  subst w' c. unfold invoke. rewrite E. unfold wrapPayloadCreator.
  destruct w as [m0 s d h cs es ws]. cbn [meta set_meta calls] in *.
  destruct (hasHandleError st); cbn [negb].
  - destruct Hsync as [Ha | Hh]; [| discriminate]. rewrite Ha in Ha'. rewrite Ha'.
    unfold_world. auto.
  - unfold_world. rewrite app_nil_r. auto.
Qed.

Lemma thrown_payload_creates_nothing_witness :
  let st := profile in
  let w := fresh (declare (Plain (fun s _ _ => s)) NoCache false) in
  let e := boom in
  let c := length (calls w) in
  let w' := invoke st 0 [] (Throws e) w in
  calls w' = calls w ++ [Threw e] /\
  effects w' = effects w ++ (if hasHandleError st then [(c, HandleError e (actionType st))]
                             else []) /\
  heap w' = heap w /\
  a_deferred w' = a_deferred w /\
  a_state w' = a_state w.
Proof.
  exact (thrown_payload_creates_nothing profile 0 [] boom
           (fresh (declare (Plain (fun s _ _ => s)) NoCache false))
           eq_refl (or_introl eq_refl)).
Defined.

(** ** Declared handlers and the reducer *)




(** ** The reducer of a tree of stores *)

Lemma fold_children_fixed (rs : list (Val -> Action -> Val)) state action :
  Forall (fun r => r state action = state) rs ->
  fold_left (fun accState r => r accState action) rs state = state.
Proof.
  induction rs as [|r rs IH]; intros H; [reflexivity |].
  inversion H as [|? ? Hr Hrs]; subst. cbn [fold_left]. rewrite Hr. now apply IH.
Qed.

Lemma reserved_action_passes s isInternal state action :
  isInternal (type action) = true -> is_nullish state = false ->
  reducer_of isInternal s state action = state.
Proof.
  intros Hint Hs.
  induction s as [d inner IH] using StoreTree_nested_ind.
  cbn [reducer_of]. unfold reducer. cbn [fold_left].
  unfold initialReducer at 1. rewrite Hs, Hint.
  apply fold_children_fixed. apply List.Forall_map. exact IH.
Qed.

(** X17. A reserved action of the underlying store goes through a whole
    tree of stores without effect: a state that is not null comes back
    unchanged, whatever handlers the stores declare; a missing state
    becomes the initial state of the root store (when that is not null),
    and the initial states of the stores below are not used. *)
Theorem reserved_action_through_a_tree isInternal d inner state action :
  isInternal (type action) = true ->
  is_nullish (initialState d) = false ->
  reducer_of isInternal (mkTree d inner) state action =
  if is_nullish state then initialState d else state.
Proof.
  intros Hint Hinit.
  destruct (is_nullish state) eqn:Hs.
  - cbn [reducer_of]. unfold reducer. cbn [fold_left].
    unfold initialReducer at 1. rewrite Hs.
    apply fold_children_fixed. apply List.Forall_map.
    apply List.Forall_forall. intros c _. now apply reserved_action_passes.
  - now apply reserved_action_passes.
Qed.

Lemma reserved_action_through_a_tree_witness :
  let isInternal := fun t : ActionType => String.eqb (scope t) "@@redux" in
  let d := mkStoreDef (VObj 0 []) (fun _ => Some (fun _ _ _ => VNum 1)) (fun s => s) in
  let inner := [mkTree (mkStoreDef (VNum 5) (fun _ => None) (fun s => s)) []] in
  let action := mkAction (mkType "@@redux" "INIT" None) VUndefined in
  reducer_of isInternal (mkTree d inner) VUndefined action =
  if is_nullish VUndefined then initialState d else VUndefined.
Proof.
  exact (reserved_action_through_a_tree
           (fun t : ActionType => String.eqb (scope t) "@@redux")
           (mkStoreDef (VObj 0 []) (fun _ => Some (fun _ _ _ => VNum 1)) (fun s => s))
           [mkTree (mkStoreDef (VNum 5) (fun _ => None) (fun s => s)) []]
           VUndefined
           (mkAction (mkType "@@redux" "INIT" None) VUndefined)
           eq_refl eq_refl).
Defined.

(** ** The lifecycle state of an action *)

Lemma find_truthy_undefined l :
  Forall (fun x => x = VUndefined) l -> find_truthy l = VUndefined.
Proof.
  induction l as [|x l IH]; intros H; [reflexivity |].
  inversion H as [|? ? Hx Hl]; subst. cbn. now apply IH.
Qed.

(** X18. [getActionState] does not depend on the store it is asked of:
    it returns the lifecycle state recorded on the action when that is
    truthy and [undefined] otherwise, however many stores are attached
    below. *)
Theorem action_state_is_read_off_the_action s state :
  getActionState s state = if truthy state then state else VUndefined.
Proof.
  induction s as [subs f g inner IH] using Nested.Store_nested_ind.
  cbn [getActionState]. destruct (truthy state) eqn:Ht; [reflexivity |].
  apply find_truthy_undefined. apply List.Forall_map.
  exact IH.
Qed.

(** ** Subscribing and unsubscribing *)

Lemma unsubscribeSingle_first fn l1 : forall l2,
  ~ In fn l1 -> unsubscribeSingle fn (l1 ++ fn :: l2) = l1 ++ l2.
Proof.
  unfold unsubscribeSingle.
  induction l1 as [|x l1 IH]; intros l2 Hn; cbn [app indexOf].
  - now rewrite Nat.eqb_refl.
  - destruct (Nat.eqb_spec x fn) as [-> | Hne]; [destruct Hn; now left |].
    specialize (IH l2 (fun H => Hn (or_intror H))).
    destruct (indexOf fn (l1 ++ fn :: l2)) as [i|]; cbn [fmap option_fmap option_map].
    + cbn. now f_equal.
    + exfalso. clear -IH. assert (length (l1 ++ fn :: l2) = length (l1 ++ l2)) by now rewrite IH.
      rewrite !length_app in H. cbn in H. lia.
Qed.

Lemma unsubscribeSingle_absent fn l : ~ In fn l -> unsubscribeSingle fn l = l.
Proof.
  unfold unsubscribeSingle.
  assert (H : ~ In fn l -> indexOf fn l = None).
  { induction l as [|x l IH]; intros Hn; [reflexivity |]. cbn [indexOf].
    destruct (Nat.eqb_spec x fn) as [-> | Hne]; [destruct Hn; now left |].
    now rewrite IH by (intros H; apply Hn; now right). }
  intros Hn. now rewrite H.
Qed.

(** X19. [unsubscribeSingle] removes one registration of the function,
    the first one, and keeps every other entry in its place: a function
    registered twice stays registered once. *)
Theorem unsubscribeSingle_removes_the_first fn l1 l2 :
  ~ In fn l1 -> unsubscribeSingle fn (l1 ++ fn :: l2) = l1 ++ l2.
Proof. apply unsubscribeSingle_first. Qed.

Lemma unsubscribeSingle_removes_the_first_witness :
  unsubscribeSingle 7 ([3] ++ 7 :: [5; 7]) = [3] ++ [5; 7].
Proof.
  apply (unsubscribeSingle_removes_the_first 7 [3] [5; 7]).
  intros [H | []]. discriminate.
Defined.

(** X20. Subscribing a function that was not registered on the store
    and unsubscribing it again gives the store back as it was; and
    unsubscribing a function that is registered on neither list of the
    store changes nothing. *)
Theorem subscribe_then_unsubscribe fn subs asubs f g inner :
  ~ In fn subs -> ~ In fn asubs ->
  let s := mkNode subs asubs f g inner in
  unsubscribe (Some fn) (subscribe fn s) = s /\
  unsubscribe (Some fn) (subscribeToActionState fn s) = s /\
  unsubscribe (Some fn) s = s.
Proof.
  intros Hs Ha s. subst s. cbn [subscribe subscribeToActionState unsubscribe].
  rewrite (unsubscribeSingle_first fn subs [] Hs), (unsubscribeSingle_first fn asubs [] Ha).
  rewrite !app_nil_r.
  now rewrite (unsubscribeSingle_absent fn subs Hs), (unsubscribeSingle_absent fn asubs Ha).
Qed.

Lemma subscribe_then_unsubscribe_witness :
  let s := mkNode [1] [2] None (fun x => x) [] in
  unsubscribe (Some 7) (subscribe 7 s) = s /\
  unsubscribe (Some 7) (subscribeToActionState 7 s) = s /\
  unsubscribe (Some 7) s = s.
Proof.
  apply (subscribe_then_unsubscribe 7 [1] [2] None (fun x => x) []).
  - intros [H | []]. discriminate.
  - intros [H | []]. discriminate.
Defined.

Lemma forEach_from_silent path state prevState : forall stores i,
  Forall (fun c => forall path state prevState,
            Nested.notifySubscribers path c state prevState = []) stores ->
  Nested.forEach_from path state prevState i stores = [].
Proof.
  induction stores as [|c rest IH]; intros i H; [reflexivity |].
  inversion H as [|? ? Hc Hrest]; subst.
  cbn [Nested.forEach_from]. unfold Nested.notify_child.
  rewrite (IH (S i) Hrest), app_nil_r.
  destruct (Nested.selectLocalState c); [apply Hc | reflexivity].
Qed.

(** X21. [unsubscribe()] without a function silences the store and
    every store below it: no function stays registered on either list
    anywhere in the tree, and a later notification calls nobody. *)
Theorem unsubscribe_all_silences_the_tree s path state prevState :
  listeners (unsubscribe None s) = [] /\
  Nested.notifySubscribers path (notifier (unsubscribe None s)) state prevState = [].
Proof.
  revert path state prevState.
  induction s as [subs asubs f g inner IH] using StoreNode_nested_ind.
  intros path state prevState. cbn [unsubscribe listeners notifier app]. split.
  - induction IH as [|c rest Hc _ IHrest]; [reflexivity |].
    cbn [map flat_map]. rewrite IHrest, app_nil_r.
    exact (proj1 (Hc [] VUndefined VUndefined)).
  - rewrite NestedFacts.notifySubscribers_unfold.
    cbn [Nested.subscriptions Nested.innerStores map app].
    apply forEach_from_silent. rewrite !List.Forall_map.
    eapply List.Forall_impl; [| exact IH]. cbn. intros c Hc p x y. apply Hc.
Qed.

(** ** Waiting for an invocation in flight *)

Lemma step_bystander st c w ev :
  bystander c ev = true ->
  a_deferred (step st w ev) = a_deferred w /\
  (forall d, settlement_of d (heap (step st w ev)) = settlement_of d (heap w)) /\
  calls (step st w ev) !! c = calls w !! c /\
  meta (step st w ev) = meta w /\
  (forall k x, waits w !! k = Some x -> waits (step st w ev) !! k = Some x).
Proof.
  intros Hev.
  assert (Hm : meta (step st w ev) = meta w)
    by (apply step_meta; now destruct ev).
  destruct ev as [| c' o | |]; try discriminate; cbn [step bystander] in *.
  - apply negb_true_iff, Nat.eqb_neq in Hev.
    destruct (settle_payload_frame st c c' o w Hev) as (_ & Hk & _).
    repeat split; try assumption.
    + destruct (calls w !! c') as [[| | |b a|]|] eqn:E;
        try (rewrite settle_payload_idle by (intros ? ?; congruence); reflexivity).
      destruct a as [| n | o'];
        [| | rewrite settle_payload_idle
               by (intros ? ? H; rewrite E in H; injection H as <- <-; eauto); reflexivity];
        now rewrite (settle_payload_flat st c' o w _ _ E) by discriminate.
    + intros d.
      destruct (calls w !! c') as [[| | |b a|]|] eqn:E;
        try (rewrite settle_payload_idle by (intros ? ?; congruence); reflexivity).
      destruct a as [| n | o'];
        [| | rewrite settle_payload_idle
               by (intros ? ? H; rewrite E in H; injection H as <- <-; eauto); reflexivity];
        now rewrite (settle_payload_flat st c' o w _ _ E) by discriminate.
    + intros k x.
      destruct (calls w !! c') as [[| | |b a|]|] eqn:E;
        try (rewrite settle_payload_idle by (intros ? ?; congruence); auto).
      destruct a as [| n | o'];
        [| | rewrite settle_payload_idle
               by (intros ? ? H; rewrite E in H; injection H as <- <-; eauto); auto];
        now rewrite (settle_payload_flat st c' o w _ _ E) by discriminate.
  - unfold waitForAction in *.
    destruct (a_deferred w) as [d|] eqn:Hd;
      cbn [add_wait set_heap a_deferred heap calls waits meta];
      repeat split; auto; intros;
      rewrite ?settlement_of_markSubscribed; auto; now apply lookup_app_l_Some.
Qed.

Lemma run_bystanders st c evs : forall w,
  Forall (fun ev => bystander c ev = true) evs ->
  a_deferred (run st w evs) = a_deferred w /\
  (forall d, settlement_of d (heap (run st w evs)) = settlement_of d (heap w)) /\
  calls (run st w evs) !! c = calls w !! c /\
  meta (run st w evs) = meta w /\
  (forall k x, waits w !! k = Some x -> waits (run st w evs) !! k = Some x).
Proof.
  induction evs as [|ev evs IH]; intros w Hevs; [cbn; auto |].
  inversion Hevs as [|? ? Hev Hevs']; subst.
  destruct (step_bystander st c w ev Hev) as (H1 & H2 & H3 & H4 & H5).
  destruct (IH (step st w ev) Hevs') as (G1 & G2 & G3 & G4 & G5).
  rewrite run_cons, G1, G3, G4, H1, H3, H4. repeat split; auto.
  intros d. now rewrite G2, H2.
Qed.

Lemma settlement_of_resolve d h :
  settlement_of d h = Some Pending -> settlement_of d (resolve d h) = Some Resolved.
Proof.
  unfold settlement_of, resolve. rewrite list_lookup_alter_eq.
  destruct (h !! d) as [x|]; [| discriminate]. cbn. intros [= Hx].
  unfold settle. now rewrite Hx.
Qed.

(** X22. A waiter learns that the action has finished, not what it
    produced.  A wait is registered while an async-declared invocation is
    in flight, and from the invocation to its continuation no other
    invocation is made and no continuation of [dispatch] of another call
    runs (promises of other calls may settle and others may wait in
    between): the wait is pending until the continuation of the
    invocation has run, and then resolves with [undefined], whatever
    value the invocation returns to its own caller. *)
Theorem waiter_learns_completion_only st addr args v w evs1 evs2 evs3 :
  isAsync (meta w) = true ->
  fst <$> checkCachedArguments addr args (meta w) = Some true ->
  let c := length (calls w) in
  Forall (fun ev => bystander c ev = true) evs1 ->
  Forall (fun ev => bystander c ev = true) evs2 ->
  Forall (fun ev => bystander c ev = true) evs3 ->
  let w1 := run st (invoke st addr args ReturnsPromise w) evs1 in
  let k := length (waits w1) in
  let w2 := run st (waitForAction w1) evs2 in
  let w3 := run st (settle_payload st c (Resolves v) w2) evs3 in
  let w4 := resume st c w3 in
  wait_result w2 k = None /\
  wait_result w3 k = None /\
  wait_result w4 k = Some (Resolves VUndefined) /\
  calls w4 !! c = Some (Settled (Resolves (or_null v))).
Proof.
  intros Ha Hchk c Hevs1 Hevs2 Hevs3 w1 k w2 w3 w4.
  destruct (checkCachedArguments addr args (meta w)) as [[b m]|] eqn:E; [| discriminate].
  cbn in Hchk. injection Hchk as ->.
  set (d := length (heap w)).
  pose proof (invoke_async_promise st addr args w m Ha E) as H0. cbv zeta in H0.
  set (w0 := invoke st addr args ReturnsPromise w) in *.
  (* up to the wait *)
  destruct (run_bystanders st c evs1 w0 Hevs1) as (D1 & S1 & K1 & M1 & _). fold w1 in D1, S1, K1, M1.
  assert (D1' : a_deferred w1 = Some d) by (rewrite D1, H0; reflexivity).
  assert (P1 : settlement_of d (heap w1) = Some Pending).
  { rewrite S1, H0. cbn [heap]. unfold settlement_of, d. now rewrite lookup_at_0. }
  assert (K1' : calls w1 !! c = Some (Suspended AsyncDeclared (awaiting_of st m)))
    by (rewrite K1, H0; cbn [calls]; apply lookup_at_0).
  (* the wait *)
  set (ww := waitForAction w1) in *.
  assert (Hww : ww = add_wait (OnDeferred d) (set_heap (markSubscribed d (heap w1)) w1))
    by (unfold ww, waitForAction; now rewrite D1').
  assert (Wk : waits ww !! k = Some (OnDeferred d))
    by (rewrite Hww; cbn [add_wait waits]; apply lookup_at_0).
  assert (Dw : a_deferred ww = Some d) by (rewrite Hww; exact D1').
  assert (Pw : settlement_of d (heap ww) = Some Pending)
    by (rewrite Hww; cbn [add_wait set_heap heap]; now rewrite settlement_of_markSubscribed).
  assert (Kw : calls ww !! c = Some (Suspended AsyncDeclared (awaiting_of st m)))
    by (rewrite Hww; exact K1').
  assert (Mw : meta ww = meta w0) by (rewrite Hww; exact M1).
  (* up to the settling of the promise *)
  destruct (run_bystanders st c evs2 ww Hevs2) as (D2 & S2 & K2 & M2 & W2).
  fold w2 in D2, S2, K2, M2, W2.
  assert (R2 : wait_result w2 k = None).
  { unfold wait_result. now rewrite (W2 _ _ Wk), S2, Pw. }
  (* the promise settles *)
  assert (Hnr : forall o1, awaiting_of st m <> Ready o1)
    by (intros o1; unfold awaiting_of; destruct (hasHandleError st); discriminate).
  rewrite Kw in K2.
  pose proof (settle_payload_flat st c (Resolves v) w2 _ _ K2 Hnr) as Hs.
  rewrite wrapped_outcome_kept in Hs.
  2: { intros Hh. right. rewrite M2, Mw, H0. cbn [meta]. now rewrite Hh. }
  set (ws := settle_payload st c (Resolves v) w2) in *.
  assert (Ks : calls ws !! c = Some (Suspended AsyncDeclared (Ready (Resolves v)))).
  { rewrite Hs. cbn [calls]. apply list_lookup_insert_eq.
    apply lookup_lt_is_Some. eauto. }
  (* up to the continuation *)
  destruct (run_bystanders st c evs3 ws Hevs3) as (D3 & S3 & K3 & _ & W3).
  fold w3 in D3, S3, K3, W3.
  assert (Wk3 : waits w3 !! k = Some (OnDeferred d)).
  { apply W3. rewrite Hs. cbn [waits]. now apply W2. }
  assert (P3 : settlement_of d (heap w3) = Some Pending).
  { rewrite S3, Hs. cbn [heap]. now rewrite S2. }
  assert (D3' : a_deferred w3 = Some d).
  { rewrite D3, Hs. cbn [a_deferred]. now rewrite D2. }
  rewrite Ks in K3.
  split; [exact R2 |]. split.
  { unfold wait_result. now rewrite Wk3, P3. }
  subst w4. clearbody w3. rewrite (resume_flat st c _ _ w3 K3).
  unfold wait_result, heap_after. cbn [waits heap calls returned]. rewrite Wk3, D3'.
  rewrite (settlement_of_resolve d _ P3). split; [reflexivity |].
  apply list_lookup_insert_eq. apply lookup_lt_is_Some. eauto.
Qed.

Lemma waiter_learns_completion_only_witness :
  let st := profile in
  let w := world_in_flight in
  let v := user in
  let evs2 := [SettlePayload 0 (Resolves guest); WaitForAction] in
  let c := length (calls w) in
  let w1 := run st (invoke st 1 [VNum 2] ReturnsPromise w) [] in
  let k := length (waits w1) in
  let w2 := run st (waitForAction w1) evs2 in
  let w3 := run st (settle_payload st c (Resolves v) w2) [] in
  let w4 := resume st c w3 in
  wait_result w2 k = None /\
  wait_result w3 k = None /\
  wait_result w4 k = Some (Resolves VUndefined) /\
  calls w4 !! c = Some (Settled (Resolves (or_null v))).
Proof.
  exact (waiter_learns_completion_only profile 1 [VNum 2] user world_in_flight
           [] [SettlePayload 0 (Resolves guest); WaitForAction] []
           eq_refl eq_refl
           ltac:(constructor) ltac:(repeat constructor) ltac:(constructor)).
Defined.

(** ** What is never called *)

Lemma lifecycle_effects_within st c s p :
  all_within (lifecycle_subscribers st)
         (map (pair c) (lifecycle_effects st s p)).
Proof.
  unfold all_within, lifecycle_effects. rewrite map_app. apply List.Forall_app. split.
  - rewrite map_map. apply List.Forall_map. apply List.Forall_forall. now intros fn Hfn.
  - repeat constructor.
Qed.

Lemma announce_within st c b o :
  all_within (lifecycle_subscribers st)
         (map (pair c) (announce st b o)).
Proof.
  destruct o as [v|e], b; cbn [announce]; try destruct (truthy v);
    try apply lifecycle_effects_within; unfold all_within; repeat constructor.
Qed.

Lemma deferred_effects_within subs c o w :
  all_within subs (map (pair c) (deferred_effects o w)).
Proof.
  unfold all_within, deferred_effects.
  destruct (a_deferred w) as [d|], o; try destruct (is_subscribed d (heap w));
    repeat constructor.
Qed.

Lemma step_within st w ev :
  all_within (lifecycle_subscribers st) (effects w) ->
  all_within (lifecycle_subscribers st) (effects (step st w ev)).
Proof.
  unfold all_within. intros Hinv.
  destruct ev as [addr args r | c o | c |]; cbn [step].
  - destruct w as [m0 s d h cs es ws]. cbn [effects] in Hinv.
    unfold invoke, wrapPayloadCreator, dispatch, create. cbn [meta calls set_meta].
    destruct (checkCachedArguments addr args m0) as [[[] m]|]; [| exact Hinv | exact Hinv].
    destruct (hasHandleError st); cbn [negb]; [destruct (isAsync m) eqn:Ha |];
      destruct r; unfold_world; cbn [isAsync set_callCount]; rewrite ?Ha;
      try destruct (isAsync m); unfold_world;
      repeat (apply List.Forall_app; split);
      try exact Hinv; try (repeat constructor; fail);
      rewrite map_map; apply List.Forall_map; apply List.Forall_forall; now intros fn Hfn.
  - destruct (calls w !! c) as [[| | |b a|]|] eqn:E;
      try (rewrite settle_payload_idle by (intros ? ?; congruence); exact Hinv).
    destruct a as [| n | o'];
      [| | rewrite settle_payload_idle
             by (intros ? ? H; rewrite E in H; injection H as <- <-; eauto); exact Hinv];
      (rewrite (settle_payload_flat st c o w _ _ E) by discriminate; cbn [effects];
       apply List.Forall_app; split; [exact Hinv |]; destruct o; repeat constructor).
  - destruct (calls w !! c) as [[| | |b [| n |o]|]|] eqn:E;
      try (rewrite resume_idle by (intros ? ?; congruence); exact Hinv).
    rewrite (resume_flat st c b o w E). cbn [effects].
    apply List.Forall_app. split; [exact Hinv |]. rewrite map_app.
    apply List.Forall_app. split; [apply announce_within | apply deferred_effects_within].
  - unfold waitForAction. now destruct (a_deferred w).
Qed.

(** X23. The lifecycle subscribers of the parent replace those of the
    store: for an action of a store that has a parent, every function
    called with a lifecycle state, in any run, is on the parent's list;
    the functions registered on the store itself are not called. *)
Theorem parent_subscribers_replace_own st parentSubs m evs c fn s :
  parentStore st = Some parentSubs ->
  In (c, CallSubscriber fn s) (effects (run st (fresh m) evs)) ->
  In fn parentSubs.
Proof.
  intros Hp Hin.
  assert (H : forall evs w,
             all_within (lifecycle_subscribers st) (effects w) ->
             all_within (lifecycle_subscribers st) (effects (run st w evs))).
  { clear. intros evs. induction evs as [|ev evs IH]; intros w Hw; [exact Hw |].
    rewrite run_cons. apply IH. now apply step_within. }
  specialize (H evs (fresh m) ltac:(constructor)).
  unfold all_within in H. rewrite List.Forall_forall in H. specialize (H _ Hin).
  unfold lifecycle_subscribers in H. now rewrite Hp in H.
Qed.

Lemma parent_subscribers_replace_own_witness :
  let st := Engine.mkStore true (fun x => x) [7] (Some [9]) (scoped "load" "profile")
                           (VStr "not a promise") in
  parentStore st = Some [9] /\
  In (0, CallSubscriber 9 START)
     (effects (run st (fresh load_meta) [Invoke 0 [VNum 1] ReturnsPromise])) /\
  In 9 [9].
Proof.
  assert (H : In (0, CallSubscriber 9 START)
                 (effects (run (Engine.mkStore true (fun x => x) [7] (Some [9])
                                               (scoped "load" "profile") (VStr "not a promise"))
                               (fresh load_meta) [Invoke 0 [VNum 1] ReturnsPromise])))
    by (left; reflexivity).
  split; [reflexivity |]. split; [exact H |].
  exact (parent_subscribers_replace_own
           (Engine.mkStore true (fun x => x) [7] (Some [9]) (scoped "load" "profile")
                           (VStr "not a promise"))
           [9] load_meta [Invoke 0 [VNum 1] ReturnsPromise] 0 9 START eq_refl H).
Defined.

Lemma plain_snoc t log c e :
  all_plain t log -> plain_call t e -> all_plain t (log ++ [(c, e)]).
Proof.
  unfold all_plain. intros Hl He. apply List.Forall_app. split; [exact Hl |].
  now constructor.
Qed.

Lemma not_async_snoc (cs : list Call) c :
  Forall (fun c => forall a, c <> Suspended AsyncDeclared a) cs ->
  (forall a, c <> Suspended AsyncDeclared a) ->
  Forall (fun c => forall a, c <> Suspended AsyncDeclared a) (cs ++ [c]).
Proof. intros Hl Hc. apply List.Forall_app. split; [exact Hl |]. now constructor. Qed.

Lemma not_async_insert (cs : list Call) i c :
  Forall (fun c => forall a, c <> Suspended AsyncDeclared a) cs ->
  (forall a, c <> Suspended AsyncDeclared a) ->
  Forall (fun c => forall a, c <> Suspended AsyncDeclared a) (<[i := c]> cs).
Proof. intros Hl Hc. now apply Forall_insert. Qed.

Lemma suspended_is_sync (cs : list Call) c b a :
  Forall (fun c => forall a, c <> Suspended AsyncDeclared a) cs ->
  cs !! c = Some (Suspended b a) -> b = SyncDeclared.
Proof.
  intros Hl Hc. destruct b; [reflexivity |].
  now destruct (Forall_lookup_1 _ _ _ _ Hl Hc a).
Qed.

Lemma step_plain st w ev : plain_world st w -> plain_world st (step st w ev).
Proof.
  intros (Ha & Hs & Hc & He).
  destruct ev as [addr args r | c o | c |]; cbn [step].
  - destruct w as [m0 s d h cs es ws]. cbn [meta a_state calls effects] in *. subst s.
    unfold plain_world, invoke, wrapPayloadCreator, dispatch, create.
    cbn [meta calls set_meta].
    destruct (checkCachedArguments addr args m0) as [[[] m]|] eqn:E.
    2-3: unfold_world; try (apply checkCachedArguments_veto in E; subst m);
         repeat split; auto; now apply not_async_snoc.
    destruct (checkCachedArguments_static _ _ _ _ _ E) as (Ha' & _). rewrite Ha in Ha'.
    destruct (hasHandleError st); cbn [negb]; rewrite ?Ha';
      destruct r; unfold_world; cbn [isAsync set_callCount]; rewrite ?Ha'; unfold_world;
      repeat split; auto;
      try (apply not_async_snoc; [exact Hc | discriminate]);
      repeat (apply plain_snoc; [| cbn; auto]); exact He.
  - destruct (calls w !! c) as [[| | |b a|]|] eqn:E;
      try (rewrite settle_payload_idle by (intros ? ?; congruence); now repeat split).
    destruct a as [| n | o'];
      [| | rewrite settle_payload_idle
             by (intros ? ? H; rewrite E in H; injection H as <- <-; eauto);
           now repeat split];
      (pose proof (suspended_is_sync _ _ _ _ Hc E) as ->;
       rewrite (settle_payload_flat st c o w _ _ E) by discriminate;
       unfold plain_world; cbn [meta a_state calls effects];
       repeat split; auto;
       try (apply not_async_insert; [exact Hc | discriminate]);
       destruct o; cbv beta iota; rewrite ?app_nil_r; try exact He;
       (apply plain_snoc; [exact He | exact I])).
  - destruct (calls w !! c) as [[| | |b [| n |o]|]|] eqn:E;
      try (rewrite resume_idle by (intros ? ?; congruence); now repeat split).
    pose proof (suspended_is_sync _ _ _ _ Hc E) as ->.
    rewrite (resume_flat st c _ o w E).
    unfold plain_world. cbn [meta a_state calls effects state_after].
    repeat split; auto; try (apply not_async_insert; [exact Hc | discriminate]).
    unfold all_plain in *. apply List.Forall_app. split; [exact He |].
    rewrite map_app. apply List.Forall_app. split.
    + destruct o as [v|e]; cbn [announce]; try destruct (truthy v); repeat constructor.
    + unfold deferred_effects.
      destruct (a_deferred w) as [d|], o; try destruct (is_subscribed d (heap w));
        repeat constructor.
  - unfold waitForAction.
    destruct (a_deferred w); unfold plain_world; cbn [add_wait set_heap meta a_state calls
      effects]; now repeat split.
Qed.

(** X24. An action that is not async-declared never announces a
    lifecycle state: in any run, whatever its payload creator returns
    and however its promises settle, no lifecycle subscriber is called,
    every action dispatched to the store is of the base type, never of
    a START, SUCCESS or ERROR variant, and the lifecycle state of the
    action stays unset. *)
Theorem plain_action_announces_nothing st m evs :
  isAsync m = false ->
  let w := run st (fresh m) evs in
  a_state w = None /\
  all_plain (getType (actionType st)) (effects w).
Proof.
  intros Ha w.
  assert (H : forall evs w, plain_world st w -> plain_world st (run st w evs)).
  { clear. intros evs. induction evs as [|ev evs IH]; intros w Hw; [exact Hw |].
    rewrite run_cons. apply IH. now apply step_plain. }
  destruct (H evs (fresh m)) as (_ & Hs & _ & He).
  - unfold plain_world, all_plain. cbn. repeat split; auto; constructor.
  - auto.
Qed.

Lemma plain_action_announces_nothing_witness :
  let st := profile in
  let m := declare (Plain (fun s _ _ => s)) NoCache false in
  let w := run st (fresh m)
             [Invoke 0 [] ReturnsPromise; SettlePayload 0 (Resolves user); Resume 0] in
  a_state w = None /\
  all_plain (getType (actionType st)) (effects w).
Proof.
  exact (plain_action_announces_nothing profile
           (declare (Plain (fun s _ _ => s)) NoCache false)
           [Invoke 0 [] ReturnsPromise; SettlePayload 0 (Resolves user); Resume 0] eq_refl).
Defined.

(** ** More on nested state *)

Module TreeFacts.

Import Nested.

Lemma default_chain_set depth v s : set (default_chain depth) v s = v.
Proof.
  induction depth as [|n IH]; [reflexivity |].
  cbn [default_chain]. unfold attached_by_default, attached. cbn [set]. exact IH.
Qed.

Lemma default_chain_get depth x :
  get (default_chain depth) x =
  match depth with
  | 0 => x
  | S _ => if truthy x then x else VUndefined
  end.
Proof.
  induction depth as [|n IH]; [reflexivity |].
  cbn [default_chain]. unfold attached_by_default, attached. cbn [get]. rewrite IH.
  destruct n; [reflexivity |]. destruct (truthy x) eqn:Hx; [now rewrite Hx | reflexivity].
Qed.

(** X25. Stores attached with the default projections, at any depth:
    writing the state of the deepest one replaces the state of the root
    by the value written, and reading it back gives that value when it
    is truthy and [undefined] when it is falsy (for a store that is
    attached at all). *)
Theorem default_chain_round_trip depth v s :
  set (default_chain depth) v s = v /\
  get (default_chain depth) (set (default_chain depth) v s) =
  match depth with
  | 0 => v
  | S _ => if truthy v then v else VUndefined
  end.
Proof. rewrite default_chain_set. split; [reflexivity | apply default_chain_get]. Qed.

Lemma lookup_assign_fields k a b :
  lookup_field k (assign_fields a b) =
  if existsb (fun kv => String.eqb k (fst kv)) b then lookup_field k b else lookup_field k a.
Proof.
  unfold assign_fields.
  assert (Hb : existsb (fun kv => String.eqb k (fst kv)) b = false -> lookup_field k b = VUndefined).
  { induction b as [|[k' v'] b IH]; [reflexivity |]. cbn.
    destruct (String.eqb k k'); [discriminate | exact IH]. }
  induction a as [|[k' v'] a IH]; cbn [List.filter app fst lookup_field].
  - destruct (existsb _ b) eqn:E; [reflexivity |]. now apply Hb.
  - destruct (String.eqb_spec k k') as [<- | Hne].
    + destruct (existsb (fun kv' => String.eqb k (fst kv')) b) eqn:E;
        cbn [negb app lookup_field].
      * exact IH.
      * now rewrite String.eqb_refl.
    + destruct (existsb (fun kv' => String.eqb k' (fst kv')) b);
        cbn [negb app lookup_field]; [exact IH |].
      destruct (String.eqb_spec k k'); [contradiction | exact IH].
Qed.

(** X26. [setPartialState] on an object state with an object: the new
    state is a fresh object in which every field given in the partial
    state has the value given there (an explicit [undefined] included)
    and every other field reads as it did before; the subscribers are
    notified, when subscriptions are enabled, with the merged state and
    the previous state. *)
Theorem setPartialState_merges addr r a fs b ps :
  state r = VObj a fs ->
  let partial := VObj b ps in
  let r' := fst (setPartialState addr r partial) in
  (exists merged,
     state r' = VObj addr merged /\
     forall k, lookup_field k merged =
               if existsb (fun kv => String.eqb k (fst kv)) ps
               then lookup_field k ps else lookup_field k fs) /\
  snd (setPartialState addr r partial) =
    if subscriptionsEnabled r
    then notifySubscribers [] (store r) (state r') (VObj a fs)
    else [].
Proof.
  intros Hs partial r'. subst r' partial.
  unfold setPartialState, setState, object_assign. rewrite Hs.
  cbn [fst snd state subscriptionsEnabled store fields_of]. split; [| reflexivity].
  eexists. split; [reflexivity |]. intros k. apply lookup_assign_fields.
Qed.

Lemma setPartialState_merges_witness :
  let r := mkRoot ab true tree in
  let partial := VObj 2 [("b", VNum 3)] in
  let r' := fst (setPartialState 9 r partial) in
  (exists merged,
     state r' = VObj 9 merged /\
     forall k, lookup_field k merged =
               if existsb (fun kv => String.eqb k (fst kv)) [("b", VNum 3)]
               then lookup_field k [("b", VNum 3)]
               else lookup_field k [("a", VNum 1); ("b", VNum 2)]) /\
  snd (setPartialState 9 r partial) =
    if subscriptionsEnabled r
    then notifySubscribers [] (store r) (state r') (VObj 1 [("a", VNum 1); ("b", VNum 2)])
    else [].
Proof.
  exact (setPartialState_merges 9 (mkRoot ab true tree) 1 [("a", VNum 1); ("b", VNum 2)]
           2 [("b", VNum 3)] eq_refl).
Defined.

(** X27. [setState] called on a store attached below the root: the
    state of the root becomes what the chain of write projections makes
    of the value, the store's own subscribers are called first with the
    state the store then reads and the state it read before, and every
    call made is for the store or a store below it: the subscribers of
    the root, of the stores in between and of the sibling stores are
    not called. *)
Theorem setState_below_the_root r path enabled v r' ns :
  setState_at r path enabled v = Some (r', ns) ->
  exists this p,
    store_at (store r) path = Some this /\
    prop_at (store r) own_state path = Some p /\
    state r' = set p v (state r) /\
    store r' = store r /\
    (enabled = true ->
     exists rest,
       ns = map (fun sub => mkNotification path sub (get p (state r')) (get p (state r)))
                (subscriptions this) ++ rest) /\
    (enabled = false -> ns = []) /\
    Forall (fun n => exists k, at_store n = path ++ k) ns.
Proof.
  unfold setState_at.
  destruct (store_at (store r) path) as [this|]; [| discriminate].
  destruct (prop_at (store r) own_state path) as [p|]; [| discriminate].
  intros [= <- <-]. exists this, p. cbn [state store].
  repeat split; try reflexivity.
  - intros ->. rewrite NestedFacts.notifySubscribers_unfold. eauto.
  - now intros ->.
  - destruct enabled; [| constructor].
    apply List.Forall_forall. intros n Hn.
    destruct (NestedFacts.notified_below _ _ _ _ _ Hn) as (k & _ & Hat & _). eauto.
Qed.

Lemma setState_below_the_root_witness :
  let r := counter 5 true in
  let r' := mkRoot (VNum 6) true tree in
  let ns := [mkNotification [0] 2 (VNum 6) (VNum 5)] in
  exists this p,
    store_at (store r) [0] = Some this /\
    prop_at (store r) own_state [0] = Some p /\
    state r' = set p (VNum 6) (state r) /\
    store r' = store r /\
    (true = true ->
     exists rest,
       ns = map (fun sub => mkNotification [0] sub (get p (state r')) (get p (state r)))
                (subscriptions this) ++ rest) /\
    (true = false -> ns = []) /\
    Forall (fun n => exists k, at_store n = [0] ++ k) ns.
Proof.
  exact (setState_below_the_root (counter 5 true) [0] true (VNum 6)
           (mkRoot (VNum 6) true tree) [mkNotification [0] 2 (VNum 6) (VNum 5)] eq_refl).
Defined.

(** X28. Who is called does not depend on the states: [notifySubscribers]
    calls the same subscribers of the same stores in the same order
    whatever the new and the previous state are.  Nothing is compared:
    setting a state equal to the previous one, or a falsy one, calls
    every subscriber all the same. *)
Theorem subscribers_are_called_whatever_the_states s : forall path x y x' y',
  called (notifySubscribers path s x y) = called (notifySubscribers path s x' y').
Proof.
  induction s as [subs f g inner IH] using Store_nested_ind.
  intros path x y x' y'. rewrite !NestedFacts.notifySubscribers_unfold.
  cbn [subscriptions innerStores]. unfold called. rewrite !map_app, !map_map.
  cbn [at_store subscriber]. f_equal.
  generalize 0. induction IH as [|c rest Hc _ IHrest]; intros i; [reflexivity |].
  cbn [forEach_from]. rewrite !map_app. f_equal; [| apply IHrest].
  unfold notify_child. destruct (selectLocalState c); [apply Hc | reflexivity].
Qed.

Lemma last_cons {A} (x : A) l d : List.last (x :: l) d = List.last l x.
Proof.
  revert x d. induction l as [|y l IH]; intros x d; [reflexivity |].
  change (List.last (x :: y :: l) d) with (List.last (y :: l) d).
  now rewrite !IH.
Qed.

Lemma setStates_muted states : forall r log,
  subscriptionsEnabled r = false ->
  fold_left (fun acc newState =>
               let (r', calls) := setState (fst acc) newState in
               (r', snd acc ++ calls))
            states (r, log)
  = (mkRoot (List.last states (state r)) false (store r), log).
Proof.
  induction states as [|v states IH]; intros r log Hr.
  - destruct r as [s e st]. cbn in Hr. now subst e.
  - cbn [fold_left]. unfold setState at 2. cbn [fst snd subscriptionsEnabled].
    rewrite Hr, app_nil_r, IH by reflexivity. cbn [state store].
    now rewrite last_cons.
Qed.

(** X29. Updates made while subscriptions are disabled are never
    announced: however many times [setState] is called in between, it
    changes the state and calls nobody, and once subscriptions are
    enabled again the next [setState] reports the last state written as
    the previous one, the states before it being lost to the
    subscribers. *)
Theorem muted_updates_are_never_announced r states v :
  let muted := setStates (disableSubscriptions r) states in
  snd muted = [] /\
  state (fst muted) = List.last states (state r) /\
  snd (setState (enableSubscriptions (fst muted)) v)
  = notifySubscribers [] (store r) v (List.last states (state r)).
Proof.
  cbv zeta. unfold setStates.
  rewrite (setStates_muted states (disableSubscriptions r) []) by reflexivity.
  repeat split.
Qed.

End TreeFacts.
